(** * Mumble client audio core: [src/mumble/Audio.cpp]

    A shallow embedding of the loopback jitter buffer ([LoopUser]), of the
    recording pass-through ([RecordUser]) and of the device lifecycle
    ([Audio::start*] / [Audio::stop*]), followed by the properties that the
    specification states about them.

    Conventions
    - wall-clock instants and [QElapsedTimer] readings are integers (ms);
    - a C++ [double] or [float] is represented by its exact rational value
      in [Q]; every place where the C++ code rounds (a double operation, the
      narrowing [static_cast<float>]) applies the rounding function of the
      [Platform] in use.  [ieee754] instantiates them with round-to-nearest,
      ties-to-even, at 53 and 24 significant bits;
    - bytes are octets [0..255] in [Z];
    - the mutex [qmLock] serialises [fetchFrames] and the locked part of
      [addFrame] (lines 106-119), which are modelled as atomic state
      transformers, with the clock readings and [rand()] draws they make
      passed as inputs.  The restart check of [addFrame] (lines 122-128)
      runs after the lock is released: [LoopUser_addFrame] is the call that
      no other thread interleaves with, [LoopUser_addFrame_interleaved] the
      call together with what the other threads do in between;
    - [stopOutput] and [stop] are modelled as small-step machines interleaved
      with the other threads that own strong references. *)

From Stdlib Require Import ZArith QArith Qpower Qround Qabs List Lia Lqa Bool String Sorted Permutation.
From Stdlib Require Qcanon.
From Stdlib Require Import Floats.SpecFloat.
Import ListNotations.
Open Scope Z_scope.

(* ================================================================== *)
(** ** Numbers *)

Definition Qlt_bool (x y : Q) : bool := negb (Qle_bool y x).

(** Largest [e] with [2^e <= x], for [x > 0]. *)
Definition floor_log2 (x : Q) : Z :=
  let e0 := Z.log2 (Qnum x) - Z.log2 (Zpos (Qden x)) in
  if Qle_bool (2 ^ e0) x then e0 else e0 - 1.

(** Nearest integer, ties to even. *)
Definition round_int_ne (s : Q) : Z :=
  let f := Qfloor s in
  match Qcompare (s - inject_Z f) (1 # 2) with
  | Lt => f
  | Gt => f + 1
  | Eq => if Z.even f then f else f + 1
  end.

(** Exponent of the unit in the last place of a magnitude [ax > 0], in the
    binary format with [prec] significant bits and least exponent [emin]. *)
Definition ulp_exponent (prec emin : Z) (ax : Q) : Z :=
  Z.max (floor_log2 ax + 1 - prec) emin.

Definition round_magnitude (prec emin : Z) (ax : Q) : Q :=
  let e := ulp_exponent prec emin ax in
  (inject_Z (round_int_ne (ax / 2 ^ e)) * 2 ^ e)%Q.

(** Round-to-nearest-even onto that format, in lowest terms (overflow to
    infinity is not represented: the values handled here are far from the
    largest finite number). *)
Definition round_ne (prec emin : Z) (x : Q) : Q :=
  if Qeq_bool x 0 then 0%Q
  else if Qle_bool 0 x then Qred (round_magnitude prec emin (Qabs x))
  else (- Qred (round_magnitude prec emin (Qabs x)))%Q.

Definition binary64_round : Q -> Q := round_ne 53 (-1074).
Definition binary32_round : Q -> Q := round_ne 24 (-149).

(** Value of a finite [spec_float], to compare [round_ne] with the
    Standard Library's IEEE 754 specification. *)
Definition SF2Q (f : spec_float) : Q :=
  match f with
  | S754_finite s m e => ((if s then -1 else 1) * inject_Z (Zpos m) * 2 ^ e)%Q
  | _ => 0%Q
  end.

(* ================================================================== *)
(** ** Bytes and packet headers *)

Definition QByteArray := list Z.

(** [char] as a signed octet, as on the platforms Mumble builds for. *)
Definition to_char (b : Z) : Z := if b <? 128 then b else b - 256.

(** [QByteArray::at(i)]: the index must be valid ([None] is the failed
    assertion). *)
Definition QByteArray_at (a : QByteArray) (i : nat) : option Z :=
  option_map to_char (nth_error a i).

(** [(x >> 5) & 0x7] *)
Definition msgType_of (x : Z) : Z := Z.land (Z.shiftr x 5) 7.

(** Modelled from the spec: [PacketDataStream::next] (PacketDataStream.h is
    not among the sources).  Byte 0 of a frame carries the message flags
    and reading it advances the stream; the spec is silent on an exhausted
    stream, which is taken to yield 0 and stay exhausted. *)
Definition pds_next (data : QByteArray) : Z * QByteArray :=
  match data with
  | b :: rest => (b, rest)
  | [] => (0, [])
  end.

(* ================================================================== *)
(** ** Threads, devices and process-wide state *)

(** Qt's [QThread::Priority]. *)
Inductive Priority :=
| IdlePriority | LowestPriority | LowPriority | NormalPriority
| HighPriority | HighestPriority | TimeCriticalPriority | InheritPriority.

Definition Priority_value (p : Priority) : Z :=
  match p with
  | IdlePriority => 0 | LowestPriority => 1 | LowPriority => 2
  | NormalPriority => 3 | HighPriority => 4 | HighestPriority => 5
  | TimeCriticalPriority => 6 | InheritPriority => 7
  end.

(** One call [addFrameToBuffer(user, qba, iSeq, msgType)]. *)
Record BufferedFrame := mkFrame {
  bf_user : string;
  bf_data : QByteArray;
  bf_seq  : Z;
  bf_type : Z
}.

(** Modelled from the spec: the render sink (AudioOutput.cpp is not among
    the sources).  A sink is observed through the sequence of
    [addFrameToBuffer] calls it has received and through the priority its
    thread was started with. *)
Record AudioOutput := mkAudioOutput {
  ao_id       : nat;
  ao_priority : option Priority;
  ao_frames   : list BufferedFrame
}.

Record AudioInput := mkAudioInput {
  ai_id       : nat;
  ai_priority : option Priority
}.

Definition addFrameToBuffer (out : AudioOutput) (user : string)
    (qba : QByteArray) (iSeq : Z) (msgType : Z) : AudioOutput :=
  mkAudioOutput (ao_id out) (ao_priority out)
                (ao_frames out ++ [mkFrame user qba iSeq msgType]).

Definition AudioOutput_start (out : AudioOutput) (p : Priority) : AudioOutput :=
  mkAudioOutput (ao_id out) (Some p) (ao_frames out).

Definition AudioInput_start (inp : AudioInput) (p : Priority) : AudioInput :=
  mkAudioInput (ai_id inp) (Some p).

Record Settings := mkSettings {
  dPacketLoss     : Q;
  dMaxPacketDelay : Q
}.

(** The parts of [Global] ([g]) that Audio.cpp touches. *)
Record Global := mkGlobal {
  s  : Settings;
  ao : option AudioOutput;
  ai : option AudioInput
}.

(** The priority the active render (capture) thread was started with. *)
Definition render_priority (g : Global) : option Z :=
  match ao g with
  | Some out => option_map Priority_value (ao_priority out)
  | None => None
  end.

Definition capture_priority (g : Global) : option Z :=
  match ai g with
  | Some inp => option_map Priority_value (ai_priority inp)
  | None => None
  end.

Definition set_ao (g : Global) (o : option AudioOutput) : Global :=
  mkGlobal (s g) o (ai g).

Definition set_ai (g : Global) (i : option AudioInput) : Global :=
  mkGlobal (s g) (ao g) i.

(** What Audio.cpp takes from outside the file. *)
Class Platform := mkPlatform {
  RAND_MAX  : Z;
  (** rounding of the result of a [double] operation *)
  to_double : Q -> Q;
  (** [static_cast<float>] *)
  to_float  : Q -> Q;
  (** [pds >> iSeq]: the decoded integer and the bytes left after it *)
  pds_read_int : QByteArray -> Z * QByteArray;
  AudioOutputRegistrar_newFromChoice : string -> option AudioOutput;
  AudioInputRegistrar_newFromChoice  : string -> option AudioInput
}.

(* ================================================================== *)
(** ** QElapsedTimer and QMultiMap *)

(** A running [QElapsedTimer] is the instant it was (re)started at. *)
Definition QElapsedTimer := Z.

Definition elapsed (t : QElapsedTimer) (clock : Z) : Z := clock - t.
Definition restart (clock : Z) : QElapsedTimer := clock.

(** [QMultiMap<float, QByteArray>] in iteration order. *)
Definition QMultiMap := list (Q * QByteArray).

(** [QMultiMap::insert]: the descent goes right while the node's key is
    less than the new key, so the new entry lands before the first entry
    whose key is not smaller (ahead of entries with an equal key). *)
Fixpoint QMultiMap_insert (k : Q) (v : QByteArray) (m : QMultiMap) : QMultiMap :=
  match m with
  | [] => [(k, v)]
  | (k', v') :: rest =>
      if Qlt_bool k' k then (k', v') :: QMultiMap_insert k v rest
      else (k, v) :: m
  end.

Definition QMultiMap_isEmpty (m : QMultiMap) : bool :=
  match m with [] => true | _ => false end.

(** The representation invariant of the map: keys never decrease along
    the iteration order. *)
Definition QMultiMap_ordered (m : QMultiMap) : Prop :=
  StronglySorted (fun a b => (fst a <= fst b)%Q) m.

(** Is the entry's key [<= now]? *)
Definition due_at (now : Q) (e : Q * QByteArray) : bool := Qle_bool (fst e) now.

(* ================================================================== *)
(** ** LoopUser *)

Record LoopUser := mkLoopUser {
  qsName       : string;
  qmPackets    : QMultiMap;
  qetTicker    : QElapsedTimer;
  qetLastFetch : QElapsedTimer
}.

(** [LoopUser::LoopUser()], with the clock read by each [start()]. *)
Definition LoopUser_new (clock1 clock2 : Z) : LoopUser :=
  mkLoopUser "Loopy" [] clock1 clock2.

(** [RecordUser::RecordUser() : LoopUser()] *)
Definition RecordUser_new (clock1 clock2 : Z) : LoopUser :=
  mkLoopUser "Recorder" [] clock1 clock2.

Definition set_qmPackets (u : LoopUser) (m : QMultiMap) : LoopUser :=
  mkLoopUser (qsName u) m (qetTicker u) (qetLastFetch u).

Definition set_qetLastFetch (u : LoopUser) (t : QElapsedTimer) : LoopUser :=
  mkLoopUser (qsName u) (qmPackets u) (qetTicker u) t.

(** What one [addFrame] call reads from its environment: the two [rand()]
    draws and the clock at lines 108, 110 and 122. *)
Record AddFrameEnv := mkAddFrameEnv {
  rand1 : Z;
  rand2 : Z;
  clock_locked  : Z;
  clock_ticker  : Z;
  clock_recheck : Z
}.

Section Model.
Context {P : Platform}.

Definition double_of_int (z : Z) : Q := to_double (inject_Z z).
Definition double_add (x y : Q) : Q := to_double (x + y).
Definition double_mul (x y : Q) : Q := to_double (x * y).
Definition double_div (x y : Q) : Q := to_double (x / y).

(** [#define DOUBLE_RAND (rand()/static_cast<double>(RAND_MAX))] *)
Definition DOUBLE_RAND (rand : Z) : Q :=
  double_div (double_of_int rand) (double_of_int RAND_MAX).

(** The key computed at lines 108-118. *)
Definition schedule_key (u : LoopUser) (g : Global) (env : AddFrameEnv) : Q :=
  let restart := 100 <? elapsed (qetLastFetch u) (clock_locked env) in
  let time := double_of_int (elapsed (qetTicker u) (clock_ticker env)) in
  let r := if restart then 0%Q
           else double_mul (DOUBLE_RAND (rand2 env)) (dMaxPacketDelay (s g)) in
  to_float (double_add time r).

(** Line 101: [DOUBLE_RAND < g.s.dPacketLoss]. *)
Definition dropped (g : Global) (env : AddFrameEnv) : bool :=
  Qlt_bool (DOUBLE_RAND (rand1 env)) (dPacketLoss (s g)).

(** [LoopUser::addFrame], run without another thread in between its
    statements; [None] is the failed [packet.at(0)]. *)
Definition LoopUser_addFrame (u : LoopUser) (g : Global) (env : AddFrameEnv)
    (packet : QByteArray) : option (LoopUser * Global) :=
  if dropped g env then
    Some (u, g)
  else
    let u' := set_qmPackets u
                (QMultiMap_insert (schedule_key u g env) packet (qmPackets u)) in
    if 100 <? elapsed (qetLastFetch u') (clock_recheck env) then
      match ao g with
      | Some out =>
          match QByteArray_at packet 0 with
          | Some c =>
              Some (u', set_ao g (Some (addFrameToBuffer out (qsName u') []
                                          0 (msgType_of c))))
          | None => None
          end
      | None => Some (u', g)
      end
    else Some (u', g).

(** Lines 101-119 of [addFrame]: the loss draw and, under [qmLock], the
    insertion.  [None] is the dropped frame. *)
Definition LoopUser_addFrame_locked (u : LoopUser) (g : Global) (env : AddFrameEnv)
    (packet : QByteArray) : option LoopUser :=
  if dropped g env then None
  else Some (set_qmPackets u
               (QMultiMap_insert (schedule_key u g env) packet (qmPackets u))).

(** Line 122 of [addFrame]: the stall timer, read again once [qmLock] has
    been released. *)
Definition LoopUser_addFrame_stalled (u : LoopUser) (clock : Z) : bool :=
  100 <? elapsed (qetLastFetch u) clock.

(** Lines 123-127 of [addFrame]: the priming frame, pushed to the render
    device that [g.ao] holds by then; [None] is the failed [packet.at(0)]. *)
Definition LoopUser_addFrame_prime (u : LoopUser) (g : Global)
    (packet : QByteArray) : option Global :=
  match ao g with
  | Some out =>
      match QByteArray_at packet 0 with
      | Some c =>
          Some (set_ao g (Some (addFrameToBuffer out (qsName u) [] 0 (msgType_of c))))
      | None => None
      end
  | None => Some g
  end.

(** What the other threads make of the user and of [g] between two
    statements of a call: a [fetchFrames] on the output thread, a device
    started or stopped on the main thread, or any part of these. *)
Definition Interference := LoopUser * Global -> LoopUser * Global.

(** [LoopUser::addFrame] with the other threads running between the
    release of [qmLock] (line 119) and the restart check (line 122), and
    between that check and the copy of [g.ao] (line 123). *)
Definition LoopUser_addFrame_interleaved (u : LoopUser) (g : Global)
    (env : AddFrameEnv) (packet : QByteArray)
    (before_recheck before_push : Interference) : option (LoopUser * Global) :=
  match LoopUser_addFrame_locked u g env packet with
  | None => Some (u, g)
  | Some u1 =>
      let at_recheck := before_recheck (u1, g) in
      if LoopUser_addFrame_stalled (fst at_recheck) (clock_recheck env) then
        let at_push := before_push at_recheck in
        match LoopUser_addFrame_prime (fst at_push) (snd at_push) packet with
        | Some g' => Some (fst at_push, g')
        | None => None
        end
      else Some at_recheck
  end.

(** Lines 148-163: what one pending entry is handed to the sink as. *)
Definition decode_frame (user : string) (data : QByteArray) : BufferedFrame :=
  let '(msgFlags, after_flags) := pds_next data in
  let '(iSeq, payload) := pds_read_int after_flags in
  mkFrame user (Z.land msgFlags 255 :: payload) iSeq (msgType_of msgFlags).

(** The [while] loop of [fetchFrames], from the iterator's position. *)
Fixpoint fetch_loop (user : string) (cmp : Q) (m : QMultiMap)
    (out : AudioOutput) : QMultiMap * AudioOutput :=
  match m with
  | [] => ([], out)
  | (k, data) :: rest =>
      if Qlt_bool cmp k then (m, out)
      else
        let f := decode_frame user data in
        fetch_loop user cmp rest
          (addFrameToBuffer out (bf_user f) (bf_data f) (bf_seq f) (bf_type f))
  end.

(** [LoopUser::fetchFrames], with the clock read at lines 140 and 167. *)
Definition LoopUser_fetchFrames (u : LoopUser) (g : Global)
    (clock_cmp clock_restart : Z) : LoopUser * Global :=
  match ao g with
  | None => (u, g)
  | Some out =>
      if QMultiMap_isEmpty (qmPackets u) then (u, g)
      else
        let cmp := double_of_int (elapsed (qetTicker u) clock_cmp) in
        let '(pending, out') := fetch_loop (qsName u) cmp (qmPackets u) out in
        (set_qetLastFetch (set_qmPackets u pending) (restart clock_restart),
         set_ao g (Some out'))
  end.

(** [RecordUser::addFrame] *)
Definition RecordUser_addFrame (u : LoopUser) (g : Global)
    (packet : QByteArray) : LoopUser * Global :=
  match ao g with
  | None => (u, g)
  | Some out =>
      let f := decode_frame (qsName u) packet in
      (u, set_ao g (Some (addFrameToBuffer out (bf_user f) (bf_data f)
                            (bf_seq f) (bf_type f))))
  end.

(** Consecutive calls. *)
Fixpoint LoopUser_addFrames (u : LoopUser) (g : Global)
    (calls : list (AddFrameEnv * QByteArray)) : option (LoopUser * Global) :=
  match calls with
  | [] => Some (u, g)
  | (env, packet) :: rest =>
      match LoopUser_addFrame u g env packet with
      | Some (u', g') => LoopUser_addFrames u' g' rest
      | None => None
      end
  end.

Fixpoint RecordUser_addFrames (u : LoopUser) (g : Global)
    (packets : list QByteArray) : LoopUser * Global :=
  match packets with
  | [] => (u, g)
  | packet :: rest =>
      let '(u', g') := RecordUser_addFrame u g packet in
      RecordUser_addFrames u' g' rest
  end.

(* ------------------------------------------------------------------ *)
(** ** Audio: starting devices *)

(** [Audio::startOutput] *)
Definition Audio_startOutput (g : Global) (output : string) : Global :=
  let g1 := set_ao g (AudioOutputRegistrar_newFromChoice output) in
  match ao g1 with
  | Some out => set_ao g1 (Some (AudioOutput_start out HighPriority))
  | None => g1
  end.

(** [Audio::startInput] *)
Definition Audio_startInput (g : Global) (input : string) : Global :=
  let g1 := set_ai g (AudioInputRegistrar_newFromChoice input) in
  match ai g1 with
  | Some inp => set_ai g1 (Some (AudioInput_start inp HighestPriority))
  | None => g1
  end.

(** [Audio::start] *)
Definition Audio_start (g : Global) (input output : string) : Global :=
  Audio_startOutput (Audio_startInput g input) output.

End Model.

(* ================================================================== *)
(** ** Audio: stopping devices

    [stopOutput], [stopInput] and [stop] share their device with the
    callback threads through [std::shared_ptr].  Each statement of the
    stopping thread is one step; between two steps any other thread may
    take a copy of the process-wide handle, copy a reference it already
    holds, or drop one. *)

Inductive Thread := ControlThread | OtherThread.

(** The strong references to one device instance: the process-wide handle
    ([g.ao] or [g.ai]), the local copy of the stopping thread, and the
    copies held by other threads. *)
Record Owners := mkOwners {
  in_global : bool;
  in_local  : bool;
  elsewhere : nat
}.

Definition use_count (o : Owners) : nat :=
  (Nat.b2n (in_global o) + Nat.b2n (in_local o) + elsewhere o)%nat.

(** [ao.get() && ! ao.unique()] on the local copy. *)
Definition held_elsewhere (o : Owners) : bool :=
  in_local o && negb (use_count o =? 1)%nat.

(** The destructor runs on the thread that drops the last reference. *)
Definition destroyed_after (t : Thread) (before after : Owners)
    (d : option Thread) : option Thread :=
  if (0 <? use_count before)%nat && (use_count after =? 0)%nat
  then Some t else d.

(** [AudioOutputPtr ao = g.ao;] *)
Definition copy_global (o : Owners) : Owners :=
  mkOwners (in_global o) (in_global o) (elsewhere o).

(** [g.ao.reset();] *)
Definition reset_global (o : Owners) : Owners :=
  mkOwners false (in_local o) (elsewhere o).

(** [ao.reset();] *)
Definition reset_local (o : Owners) : Owners :=
  mkOwners (in_global o) false (elsewhere o).

(** What the other threads can do to the references of one device. *)
Inductive OtherAction := Acquire | Duplicate | Release.

Definition other_step (a : OtherAction) (o : Owners) : Owners :=
  match a with
  | Acquire =>
      if in_global o
      then mkOwners (in_global o) (in_local o) (S (elsewhere o)) else o
  | Duplicate =>
      match elsewhere o with
      | O => o
      | S _ => mkOwners (in_global o) (in_local o) (S (elsewhere o))
      end
  | Release =>
      mkOwners (in_global o) (in_local o) (pred (elsewhere o))
  end.

(* ------------------------------------------------------------------ *)
(** *** [Audio::stopOutput] (and, with [g.ai], [Audio::stopInput]) *)

Inductive StopOutputPc :=
| SO_copy          (* line 211 *)
| SO_reset_global  (* line 214 *)
| SO_wait          (* line 218 *)
| SO_reset_local   (* line 232 *)
| SO_returned.

Record StopOutput := mkStopOutput {
  so_pc        : StopOutputPc;
  so_device    : Owners;
  so_destroyed : option Thread
}.

Inductive StopOutputAction :=
| SO_control            (* the stopping thread runs its next statement *)
| SO_other (a : OtherAction).

Definition stopOutput_control (st : StopOutput) : StopOutput :=
  let o := so_device st in
  match so_pc st with
  | SO_copy => mkStopOutput SO_reset_global (copy_global o) (so_destroyed st)
  | SO_reset_global =>
      mkStopOutput SO_wait (reset_global o)
        (destroyed_after ControlThread o (reset_global o) (so_destroyed st))
  | SO_wait =>
      if held_elsewhere o
      then st                                   (* yieldCurrentThread() *)
      else mkStopOutput SO_reset_local o (so_destroyed st)
  | SO_reset_local =>
      mkStopOutput SO_returned (reset_local o)
        (destroyed_after ControlThread o (reset_local o) (so_destroyed st))
  | SO_returned => st
  end.

Definition stopOutput_step (st : StopOutput) (a : StopOutputAction) : StopOutput :=
  match a with
  | SO_control => stopOutput_control st
  | SO_other b =>
      let o := so_device st in
      mkStopOutput (so_pc st) (other_step b o)
        (destroyed_after OtherThread o (other_step b o) (so_destroyed st))
  end.

Definition stopOutput_run (schedule : list StopOutputAction) (st : StopOutput)
    : StopOutput :=
  fold_left stopOutput_step schedule st.

(** A call made while a render device is active and [n] references to it
    are held by other threads. *)
Definition stopOutput_call (n : nat) : StopOutput :=
  mkStopOutput SO_copy (mkOwners true false n) None.

(* ------------------------------------------------------------------ *)
(** *** [Audio::stop] *)

Inductive Direction := Capture | Render.

Inductive StopPc :=
| ST_copy_ai       (* line 277 *)
| ST_copy_ao       (* line 278 *)
| ST_reset_ao      (* line 282 *)
| ST_reset_ai      (* line 283 *)
| ST_test_ai       (* line 287, left operand *)
| ST_test_ao       (* line 287, right operand *)
| ST_release_ai    (* line 302 *)
| ST_release_ao    (* line 303 *)
| ST_returned.

Record Stop := mkStop {
  st_pc : StopPc;
  st_ai : Owners;
  st_ao : Owners;
  st_ai_destroyed : option Thread;
  st_ao_destroyed : option Thread
}.

Inductive StopAction :=
| ST_control
| ST_other (d : Direction) (a : OtherAction).

Definition stop_control (st : Stop) : Stop :=
  let i := st_ai st in
  let o := st_ao st in
  let di := st_ai_destroyed st in
  let dO := st_ao_destroyed st in
  match st_pc st with
  | ST_copy_ai => mkStop ST_copy_ao (copy_global i) o di dO
  | ST_copy_ao => mkStop ST_reset_ao i (copy_global o) di dO
  | ST_reset_ao =>
      mkStop ST_reset_ai i (reset_global o) di
        (destroyed_after ControlThread o (reset_global o) dO)
  | ST_reset_ai =>
      mkStop ST_test_ai (reset_global i) o
        (destroyed_after ControlThread i (reset_global i) di) dO
  | ST_test_ai =>
      if held_elsewhere i
      then st                                   (* yieldCurrentThread() *)
      else mkStop ST_test_ao i o di dO
  | ST_test_ao =>
      if held_elsewhere o
      then mkStop ST_test_ai i o di dO          (* yieldCurrentThread() *)
      else mkStop ST_release_ai i o di dO
  | ST_release_ai =>
      mkStop ST_release_ao (reset_local i) o
        (destroyed_after ControlThread i (reset_local i) di) dO
  | ST_release_ao =>
      mkStop ST_returned i (reset_local o) di
        (destroyed_after ControlThread o (reset_local o) dO)
  | ST_returned => st
  end.

Definition stop_step (st : Stop) (a : StopAction) : Stop :=
  match a with
  | ST_control => stop_control st
  | ST_other Capture b =>
      let i := st_ai st in
      mkStop (st_pc st) (other_step b i) (st_ao st)
        (destroyed_after OtherThread i (other_step b i) (st_ai_destroyed st))
        (st_ao_destroyed st)
  | ST_other Render b =>
      let o := st_ao st in
      mkStop (st_pc st) (st_ai st) (other_step b o)
        (st_ai_destroyed st)
        (destroyed_after OtherThread o (other_step b o) (st_ao_destroyed st))
  end.

Definition stop_run (schedule : list StopAction) (st : Stop) : Stop :=
  fold_left stop_step schedule st.

(** A call made while both devices are active, [ni] and [no] references to
    them being held by other threads. *)
Definition stop_call (ni no : nat) : Stop :=
  mkStop ST_copy_ai (mkOwners true false ni) (mkOwners true false no) None None.

(** Has the stopping thread gone past the wait loop? *)
Definition stop_past_wait (pc : StopPc) : bool :=
  match pc with
  | ST_release_ai | ST_release_ao | ST_returned => true
  | _ => false
  end.

(* ------------------------------------------------------------------ *)
(** *** What holds at each program point *)

Definition stopOutput_inv (st : StopOutput) : Prop :=
  let o := so_device st in
  match so_pc st with
  | SO_copy =>
      in_global o = true /\ in_local o = false /\ so_destroyed st = None
  | SO_reset_global =>
      in_global o = true /\ in_local o = true /\ so_destroyed st = None
  | SO_wait =>
      in_global o = false /\ in_local o = true /\ so_destroyed st = None
  | SO_reset_local =>
      in_global o = false /\ in_local o = true /\ elsewhere o = O
      /\ so_destroyed st = None
  | SO_returned =>
      in_global o = false /\ in_local o = false /\ elsewhere o = O
      /\ so_destroyed st = Some ControlThread
  end.

(** [g] process-wide handle set, [l] local copy held, [sole]: no reference
    is held by another thread. *)
Definition owned (o : Owners) (g l sole : bool) : Prop :=
  in_global o = g /\ in_local o = l /\ (sole = true -> elsewhere o = O).

Definition stop_inv (st : Stop) : Prop :=
  let i := st_ai st in
  let o := st_ao st in
  let di := st_ai_destroyed st in
  let dO := st_ao_destroyed st in
  match st_pc st with
  | ST_copy_ai =>
      owned i true false false /\ owned o true false false /\ di = None /\ dO = None
  | ST_copy_ao =>
      owned i true true false /\ owned o true false false /\ di = None /\ dO = None
  | ST_reset_ao =>
      owned i true true false /\ owned o true true false /\ di = None /\ dO = None
  | ST_reset_ai =>
      owned i true true false /\ owned o false true false /\ di = None /\ dO = None
  | ST_test_ai =>
      owned i false true false /\ owned o false true false /\ di = None /\ dO = None
  | ST_test_ao =>
      owned i false true true /\ owned o false true false /\ di = None /\ dO = None
  | ST_release_ai =>
      owned i false true true /\ owned o false true true /\ di = None /\ dO = None
  | ST_release_ao =>
      owned i false false true /\ owned o false true true
      /\ di = Some ControlThread /\ dO = None
  | ST_returned =>
      owned i false false true /\ owned o false false true
      /\ di = Some ControlThread /\ dO = Some ControlThread
  end.

(** The schedule in which the other threads drop their references while
    the stopping thread waits. *)
Definition stopOutput_prompt_schedule (n : nat) : list StopOutputAction :=
  [SO_control; SO_control] ++ repeat (SO_other Release) n
  ++ [SO_control; SO_control].

Definition stop_prompt_schedule (ni no : nat) : list StopAction :=
  [ST_control; ST_control; ST_control; ST_control]
  ++ repeat (ST_other Capture Release) ni ++ repeat (ST_other Render Release) no
  ++ [ST_control; ST_control; ST_control; ST_control].

(* ================================================================== *)
(** ** Platforms to run the model on *)

(** A reader for the examples, whose sequence numbers are below 128 and
    take one byte.  [PacketDataStream] is not among the sources: the
    theorems are stated for every reader. *)
Definition read_one_byte (data : QByteArray) : Z * QByteArray :=
  match data with
  | b :: rest => (b, rest)
  | [] => (0, [])
  end.

(** A registrar that knows one backend for each direction. *)
Definition one_output_backend (choice : string) : option AudioOutput :=
  if String.eqb choice "ALSA" then Some (mkAudioOutput 1 None []) else None.

Definition one_input_backend (choice : string) : option AudioInput :=
  if String.eqb choice "ALSA" then Some (mkAudioInput 1 None) else None.

(** IEEE 754 binary64 / binary32 arithmetic, glibc's [RAND_MAX], with
    [read] for [pds >> iSeq]. *)
Definition ieee754_reading (read : QByteArray -> Z * QByteArray) : Platform :=
  mkPlatform 2147483647 binary64_round binary32_round
             read one_output_backend one_input_backend.

Definition ieee754 : Platform := ieee754_reading read_one_byte.

(** Data for the examples: keys inserted as 5, 1, 3 and then 9 (the
    second byte of each packet names its key; 128 = 0b100_00000 is message
    type 4). *)
Definition pending_5_1_3_9 : QMultiMap :=
  QMultiMap_insert 9 [128; 90]
    (QMultiMap_insert 3 [128; 30]
       (QMultiMap_insert 1 [128; 10]
          (QMultiMap_insert 5 [128; 50] []))).

Definition silent_settings : Settings := mkSettings 0 0.

Definition idle_global : Global := mkGlobal silent_settings None None.

Definition running_output : AudioOutput := mkAudioOutput 1 (Some HighPriority) [].

(** The hypotheses on the platform's [double] arithmetic that the bounds
    on the scheduling delay rest on: rounding is monotone and leaves 0 and
    1 unchanged. *)
Definition double_rounding_laws (P : Platform) : Prop :=
  (forall x y : Q, (x <= y)%Q -> (to_double x <= to_double y)%Q)
  /\ (to_double 0 == 0)%Q
  /\ (to_double 1 == 1)%Q.


(* ================================================================== *)
(** ** Sequences of calls on one loopback user *)

Inductive LoopOp :=
| Op_addFrame (env : AddFrameEnv) (packet : QByteArray)
| Op_fetchFrames (clock_cmp clock_restart : Z).

Section ModelOps.
Context {P : Platform}.

Definition LoopUser_step (u : LoopUser) (g : Global) (op : LoopOp)
    : option (LoopUser * Global) :=
  match op with
  | Op_addFrame env packet => LoopUser_addFrame u g env packet
  | Op_fetchFrames clock_cmp clock_restart =>
      Some (LoopUser_fetchFrames u g clock_cmp clock_restart)
  end.

Fixpoint LoopUser_run (u : LoopUser) (g : Global) (ops : list LoopOp)
    : option (LoopUser * Global) :=
  match ops with
  | [] => Some (u, g)
  | op :: rest =>
      match LoopUser_step u g op with
      | Some (u', g') => LoopUser_run u' g' rest
      | None => None
      end
  end.

End ModelOps.

(** The sink as it is after receiving [extra] further frames. *)
Definition sink_after (out : AudioOutput) (extra : list BufferedFrame) : AudioOutput :=
  mkAudioOutput (ao_id out) (ao_priority out) (ao_frames out ++ extra).

(** A frame as [addFrameToBuffer] may receive it from [user]: a message
    type of three bits. *)
Definition frame_from (user : string) (f : BufferedFrame) : Prop :=
  bf_user f = user /\ 0 <= bf_type f < 8.

(* ================================================================== *)
(** ** Schedules of the stop operations *)

Definition is_SO_control (a : StopOutputAction) : bool :=
  match a with SO_control => true | SO_other _ => false end.

(** How many statements the stopping thread gets to run. *)
Definition stopOutput_control_steps (schedule : list StopOutputAction) : nat :=
  List.length (filter is_SO_control schedule).

(** The program point reached after [k] statements that never yield. *)
Definition stopOutput_pc_after (k : nat) : StopOutputPc :=
  match k with
  | 0 => SO_copy
  | 1 => SO_reset_global
  | 2 => SO_wait
  | 3 => SO_reset_local
  | _ => SO_returned
  end%nat.

(** A call made while no render device is active ([g.ao] is null); [n]
    references to a device that is no longer installed may still be held
    by other threads. *)
Definition stopOutput_idle_call (n : nat) : StopOutput :=
  mkStopOutput SO_copy (mkOwners false false n) None.

Definition is_ST_control (a : StopAction) : bool :=
  match a with ST_control => true | ST_other _ _ => false end.

Definition stop_control_steps (schedule : list StopAction) : nat :=
  List.length (filter is_ST_control schedule).

(** The references of one direction in a [stop] state. *)
Definition stop_device (d : Direction) (st : Stop) : Owners :=
  match d with Capture => st_ai st | Render => st_ao st end.

(** The states [stop] goes through, statement by statement, from the
    first evaluation of its loop condition with both devices held by the
    stopping thread alone. *)
Definition stop_sole_state (k : nat) : Stop :=
  match k with
  | 0 => mkStop ST_test_ai (mkOwners false true 0) (mkOwners false true 0) None None
  | 1 => mkStop ST_test_ao (mkOwners false true 0) (mkOwners false true 0) None None
  | 2 => mkStop ST_release_ai (mkOwners false true 0) (mkOwners false true 0) None None
  | 3 => mkStop ST_release_ao (mkOwners false false 0) (mkOwners false true 0)
                (Some ControlThread) None
  | _ => mkStop ST_returned (mkOwners false false 0) (mkOwners false false 0)
                (Some ControlThread) (Some ControlThread)
  end%nat.

(** A [stop] call made with either device active or not. *)
Definition stop_call_from (ai_active ao_active : bool) (ni no : nat) : Stop :=
  mkStop ST_copy_ai (mkOwners ai_active false ni) (mkOwners ao_active false no)
         None None.

(** One direction's part of what holds at a program point of [stop]: for a
    device that was active at the call, which references exist and whether
    the stopping thread has destroyed it; for a direction without a device,
    that the stopping thread holds and destroys nothing. *)
Definition side_inv (active : bool) (o : Owners) (d : option Thread)
    (g l sole destroyed : bool) : Prop :=
  if active
  then owned o g l sole /\ d = (if destroyed then Some ControlThread else None)
  else in_global o = false /\ in_local o = false /\ d <> Some ControlThread.

Definition stop_inv_from (ia oa : bool) (st : Stop) : Prop :=
  let i := side_inv ia (st_ai st) (st_ai_destroyed st) in
  let o := side_inv oa (st_ao st) (st_ao_destroyed st) in
  match st_pc st with
  | ST_copy_ai    => i true false false false /\ o true false false false
  | ST_copy_ao    => i true true false false  /\ o true false false false
  | ST_reset_ao   => i true true false false  /\ o true true false false
  | ST_reset_ai   => i true true false false  /\ o false true false false
  | ST_test_ai    => i false true false false /\ o false true false false
  | ST_test_ao    => i false true true false  /\ o false true false false
  | ST_release_ai => i false true true false  /\ o false true true false
  | ST_release_ao => i false false true true  /\ o false true true false
  | ST_returned   => i false false true true  /\ o false false true true
  end.

(** The statements of [stopOutput] in program order. *)
Definition stopOutput_pc_index (pc : StopOutputPc) : nat :=
  match pc with
  | SO_copy => 0
  | SO_reset_global => 1
  | SO_wait => 2
  | SO_reset_local => 3
  | SO_returned => 4
  end.

(** The statements of [stop] in program order. *)
Definition stop_pc_index (pc : StopPc) : nat :=
  match pc with
  | ST_copy_ai => 0
  | ST_copy_ao => 1
  | ST_reset_ao => 2
  | ST_reset_ai => 3
  | ST_test_ai => 4
  | ST_test_ao => 5
  | ST_release_ai => 6
  | ST_release_ao => 7
  | ST_returned => 8
  end.

(** The other threads release, one by one, the references to the render
    device that they hold in [st]. *)
Definition stopOutput_release_all (st : StopOutput) : list StopOutputAction :=
  repeat (SO_other Release) (elsewhere (so_device st)).

Definition stop_release_all (st : Stop) : list StopAction :=
  repeat (ST_other Capture Release) (elsewhere (st_ai st))
  ++ repeat (ST_other Render Release) (elsewhere (st_ao st)).

(** No reference that could keep [stop] waiting: the process-wide handle
    is cleared and, if the stopping thread holds its copy, nobody else
    holds one. *)
Definition released_elsewhere (o : Owners) : Prop :=
  in_global o = false /\ (in_local o = true -> elsewhere o = O).

(* ================================================================== *)
(** ** Starting over an active device

    [g.ao = AudioOutputRegistrar::newFromChoice(output);] (line 203, and
    line 236 for [g.ai]) overwrites the process-wide handle.  The device
    that the handle held loses that reference at the assignment:
    [startOutput] takes no local copy and has no wait loop. *)

Record Replaced := mkReplaced {
  rp_device    : Owners;
  rp_destroyed : option Thread
}.

(** The assignment, for the device held before. *)
Definition assign_global (st : Replaced) : Replaced :=
  let o := rp_device st in
  mkReplaced (reset_global o)
    (destroyed_after ControlThread o (reset_global o) (rp_destroyed st)).

Definition replaced_other (st : Replaced) (a : OtherAction) : Replaced :=
  let o := rp_device st in
  mkReplaced (other_step a o)
    (destroyed_after OtherThread o (other_step a o) (rp_destroyed st)).

(** The device that was active when the handle is overwritten, [n]
    references to it being held by other threads at that moment, after
    what these threads do next. *)
Definition replaced_after (n : nat) (others : list OtherAction) : Replaced :=
  fold_left replaced_other others
    (assign_global (mkReplaced (mkOwners true false n) None)).

(* ================================================================== *)
(** ** CodecInit

    [CodecInit::initialize] constructs codec objects, keeps the ones whose
    library loaded and deletes the others; [CodecInit::destroy] deletes
    what was kept.  The heap is the list of objects constructed and not
    yet deleted. *)

Inductive CodecKind :=
| OpusKind                       (* OpusCodec *)
| SBCELTKind                     (* CELTCodecSBCELT *)
| CELT070Kind (version : string) (* CELTCodec070(version) *).

(** The conditional compilation of Audio.cpp. *)
Record Build := mkBuild {
  USE_OPUS   : bool;
  USE_SBCELT : bool
}.

(** What constructing a codec of each kind finds on the machine: whether
    its library loaded ([isValid()]) and the bitstream version it
    reports. *)
Record CodecLibrary := mkCodecLibrary {
  isValid          : CodecKind -> bool;
  bitstreamVersion : CodecKind -> Z
}.

Record Codec := mkCodec {
  codec_addr : nat;
  codec_kind : CodecKind
}.

(** The parts of [g] that CodecInit touches, the heap, and what was
    logged. *)
Record CodecGlobal := mkCodecGlobal {
  bDisableCELT    : bool;              (* g.s.bDisableCELT *)
  oCodec          : option nat;        (* g.oCodec *)
  qmCodecs        : list (Z * nat);    (* g.qmCodecs : QMap<int, CELTCodec *> *)
  heap            : list Codec;
  next_addr       : nat;
  bad_deletes     : list nat;          (* deletes of an address not on the heap *)
  critical_errors : nat                (* Log::CriticalError entries *)
}.

(** [new T(...)] *)
Definition new_codec (kind : CodecKind) (g : CodecGlobal) : nat * CodecGlobal :=
  (next_addr g,
   mkCodecGlobal (bDisableCELT g) (oCodec g) (qmCodecs g)
     (heap g ++ [mkCodec (next_addr g) kind]) (S (next_addr g))
     (bad_deletes g) (critical_errors g)).

Definition on_heap (a : nat) (h : list Codec) : bool :=
  existsb (fun c => codec_addr c =? a)%nat h.

(** [delete p]; deleting the null pointer does nothing. *)
Definition delete_codec (p : option nat) (g : CodecGlobal) : CodecGlobal :=
  match p with
  | None => g
  | Some a =>
      if on_heap a (heap g)
      then mkCodecGlobal (bDisableCELT g) (oCodec g) (qmCodecs g)
             (filter (fun c => negb (codec_addr c =? a)%nat) (heap g))
             (next_addr g) (bad_deletes g) (critical_errors g)
      else mkCodecGlobal (bDisableCELT g) (oCodec g) (qmCodecs g) (heap g)
             (next_addr g) (bad_deletes g ++ [a]) (critical_errors g)
  end.

Definition set_oCodec (g : CodecGlobal) (p : option nat) : CodecGlobal :=
  mkCodecGlobal (bDisableCELT g) p (qmCodecs g) (heap g) (next_addr g)
    (bad_deletes g) (critical_errors g).

Definition set_qmCodecs (g : CodecGlobal) (m : list (Z * nat)) : CodecGlobal :=
  mkCodecGlobal (bDisableCELT g) (oCodec g) m (heap g) (next_addr g)
    (bad_deletes g) (critical_errors g).

(** [Log::logOrDefer(Log::CriticalError, ...)] *)
Definition log_critical (g : CodecGlobal) : CodecGlobal :=
  mkCodecGlobal (bDisableCELT g) (oCodec g) (qmCodecs g) (heap g) (next_addr g)
    (bad_deletes g) (S (critical_errors g)).

(** [QMap::insert]: one value per key, keys in increasing order. *)
Fixpoint QMap_insert (k : Z) (v : nat) (m : list (Z * nat)) : list (Z * nat) :=
  match m with
  | [] => [(k, v)]
  | (k', v') :: rest =>
      if k' <? k then (k', v') :: QMap_insert k v rest
      else if k =? k' then (k, v) :: rest
      else (k, v) :: m
  end.

(** [codec = new K; if (codec->isValid()) { codec->report();
    g.qmCodecs.insert(codec->bitstreamVersion(), codec); } else ...]: the
    codec's address, whether it was kept, and the state. *)
Definition construct_celt (lib : CodecLibrary) (kind : CodecKind) (g : CodecGlobal)
    : nat * bool * CodecGlobal :=
  let '(p, g1) := new_codec kind g in
  if isValid lib kind
  then (p, true, set_qmCodecs g1 (QMap_insert (bitstreamVersion lib kind) p (qmCodecs g1)))
  else (p, false, g1).

(** [CodecInit::initialize] *)
Definition CodecInit_initialize (b : Build) (lib : CodecLibrary) (g : CodecGlobal)
    : CodecGlobal :=
  let g1 :=
    if USE_OPUS b then
      let '(p, g') := new_codec OpusKind g in
      if isValid lib OpusKind then set_oCodec g' (Some p)
      else delete_codec (Some p) (log_critical g')
    else g in
  if bDisableCELT g1 then g1
  else if USE_SBCELT b then
    let '(p, kept, g2) := construct_celt lib SBCELTKind g1 in
    if kept then g2 else delete_codec (Some p) g2
  else
    let '(p, kept, g2) := construct_celt lib (CELT070Kind "0.7.0") g1 in
    if kept then g2
    else
      let g3 := delete_codec (Some p) g2 in
      let '(p', kept', g4) := construct_celt lib (CELT070Kind "0.0.0") g3 in
      if kept' then g4 else delete_codec (Some p') g4.

(** [CodecInit::destroy] *)
Definition CodecInit_destroy (b : Build) (g : CodecGlobal) : CodecGlobal :=
  let g1 := if USE_OPUS b then delete_codec (oCodec g) g else g in
  let g2 := fold_left (fun acc e => delete_codec (Some (snd e)) acc) (qmCodecs g1) g1 in
  set_qmCodecs g2 [].

(** The state before any codec has been constructed. *)
Definition CodecGlobal_start (disable_celt : bool) (first_addr : nat) : CodecGlobal :=
  mkCodecGlobal disable_celt None [] [] first_addr [] 0.

(** The addresses reachable from [g]. *)
Definition registered (g : CodecGlobal) : list nat :=
  match oCodec g with Some a => [a] | None => [] end ++ map snd (qmCodecs g).

(* ================================================================== *)
(** * Properties *)

(** ** Rounding to nearest *)

Lemma pow2_pos (e : Z) : (0 < 2 ^ e)%Q.
Proof. apply Qpower_0_lt. reflexivity. Qed.

Lemma pow2_plus (a b : Z) : (2 ^ (a + b) == 2 ^ a * 2 ^ b)%Q.
Proof. apply Qpower_plus. discriminate. Qed.

Lemma pow2_inject (k : Z) : 0 <= k -> (inject_Z (2 ^ k) == 2 ^ k)%Q.
Proof. intros H. rewrite Zpower_Qpower by assumption. reflexivity. Qed.

Lemma pow2_le (a b : Z) : a <= b -> (2 ^ a <= 2 ^ b)%Q.
Proof. intros H. apply Qpower_le_compat_l; [assumption|discriminate]. Qed.

Lemma pow2_lt_inv (a b : Z) : (2 ^ a < 2 ^ b)%Q -> a < b.
Proof. intros H. apply (Qpower_lt_compat_l_inv 2); [assumption|reflexivity]. Qed.

Lemma frac_le (p q r t : Z) :
  0 < q -> 0 < t -> p * t <= r * q ->
  (inject_Z p / inject_Z q <= inject_Z r / inject_Z t)%Q.
Proof.
  intros Hq Ht H.
  assert (Hq' : (0 < inject_Z q)%Q) by (change 0%Q with (inject_Z 0); rewrite <- Zlt_Qlt; lia).
  assert (Ht' : (0 < inject_Z t)%Q) by (change 0%Q with (inject_Z 0); rewrite <- Zlt_Qlt; lia).
  apply Qle_shift_div_r; [exact Hq'|].
  unfold Qdiv. rewrite <- Qmult_assoc, (Qmult_comm (/ _)), Qmult_assoc.
  apply Qle_shift_div_l; [exact Ht'|].
  rewrite <- !inject_Z_mult, <- Zle_Qle. exact H.
Qed.

Lemma frac_lt (p q r t : Z) :
  0 < q -> 0 < t -> p * t < r * q ->
  (inject_Z p / inject_Z q < inject_Z r / inject_Z t)%Q.
Proof.
  intros Hq Ht H.
  assert (Hq' : (0 < inject_Z q)%Q) by (change 0%Q with (inject_Z 0); rewrite <- Zlt_Qlt; lia).
  assert (Ht' : (0 < inject_Z t)%Q) by (change 0%Q with (inject_Z 0); rewrite <- Zlt_Qlt; lia).
  apply Qlt_shift_div_r; [exact Hq'|].
  unfold Qdiv. rewrite <- Qmult_assoc, (Qmult_comm (/ _)), Qmult_assoc.
  apply Qlt_shift_div_l; [exact Ht'|].
  rewrite <- !inject_Z_mult, <- Zlt_Qlt. exact H.
Qed.

Lemma pow2_minus_frac (a b : Z) :
  0 <= a -> 0 <= b -> (2 ^ (a - b) == inject_Z (2 ^ a) / inject_Z (2 ^ b))%Q.
Proof.
  intros Ha Hb. rewrite Qpower_minus by discriminate.
  rewrite !pow2_inject by assumption. reflexivity.
Qed.

Lemma floor_log2_spec (x : Q) :
  (0 < x)%Q -> (2 ^ floor_log2 x <= x)%Q /\ (x < 2 ^ (floor_log2 x + 1))%Q.
Proof.
  intros Hx. unfold floor_log2.
  destruct x as [n d]. cbn [Qnum Qden].
  assert (Hn : 0 < n) by (unfold Qlt in Hx; simpl in Hx; lia).
  set (a := Z.log2 n). set (b := Z.log2 (Z.pos d)).
  assert (Ha : 0 <= a) by apply Z.log2_nonneg.
  assert (Hb : 0 <= b) by apply Z.log2_nonneg.
  destruct (Z.log2_spec n Hn) as [Ha1 Ha2]. fold a in Ha1, Ha2.
  destruct (Z.log2_spec (Z.pos d) (Pos2Z.is_pos d)) as [Hb1 Hb2]. fold b in Hb1, Hb2.
  assert (HA : 0 < 2 ^ a) by (apply Z.pow_pos_nonneg; lia).
  assert (HB : 0 < 2 ^ b) by (apply Z.pow_pos_nonneg; lia).
  rewrite Z.pow_succ_r in Ha2, Hb2 by assumption.
  assert (Hxq : (n # d == inject_Z n / inject_Z (Z.pos d))%Q) by apply Qmake_Qdiv.
  assert (Hup : (n # d < 2 ^ (a - b + 1))%Q).
  { replace (a - b + 1) with ((a + 1) - b) by lia.
    rewrite pow2_minus_frac by lia. rewrite Hxq.
    apply frac_lt; [lia|lia|]. rewrite Z.pow_add_r by lia. nia. }
  assert (Hlo : (2 ^ (a - b - 1) <= n # d)%Q).
  { replace (a - b - 1) with (a - (b + 1)) by lia.
    rewrite pow2_minus_frac by lia. rewrite Hxq.
    apply frac_le; [|lia|]; rewrite Z.pow_add_r by lia; nia. }
  destruct (Qle_bool (2 ^ (a - b)) (n # d)) eqn:E.
  - apply Qle_bool_iff in E. split; assumption.
  - split; [exact Hlo|].
    replace (a - b - 1 + 1) with (a - b) by lia.
    apply Qnot_le_lt. intros H. apply Qle_bool_iff in H. congruence.
Qed.

Lemma floor_log2_mono (x y : Q) :
  (0 < x)%Q -> (x <= y)%Q -> floor_log2 x <= floor_log2 y.
Proof.
  intros Hx Hxy.
  destruct (floor_log2_spec x Hx) as [Hx1 _].
  destruct (floor_log2_spec y (Qlt_le_trans _ _ _ Hx Hxy)) as [_ Hy2].
  assert (H : (2 ^ floor_log2 x < 2 ^ (floor_log2 y + 1))%Q).
  { eapply Qle_lt_trans; [exact Hx1|]. eapply Qle_lt_trans; eassumption. }
  apply pow2_lt_inv in H. lia.
Qed.

Lemma round_int_ne_bounds (s : Q) :
  Qfloor s <= round_int_ne s <= Qfloor s + 1.
Proof.
  unfold round_int_ne. destruct (Qcompare _ _); [destruct (Z.even _)| |]; lia.
Qed.

Lemma round_int_ne_Z (n : Z) : round_int_ne (inject_Z n) = n.
Proof.
  unfold round_int_ne. rewrite Qfloor_Z.
  destruct (Qcompare (inject_Z n - inject_Z n) (1 # 2)) eqn:C; [| reflexivity |].
  - apply Qeq_alt in C. exfalso. lra.
  - apply Qgt_alt in C. exfalso. lra.
Qed.

Lemma round_int_ne_mono (s t : Q) :
  (s <= t)%Q -> round_int_ne s <= round_int_ne t.
Proof.
  intros Hst.
  assert (Hf := Qfloor_resp_le s t Hst).
  destruct (Z.eq_dec (Qfloor s) (Qfloor t)) as [E|N].
  - unfold round_int_ne. rewrite <- E.
    destruct (Qcompare (s - inject_Z (Qfloor s)) (1 # 2)) eqn:Cs;
      destruct (Qcompare (t - inject_Z (Qfloor s)) (1 # 2)) eqn:Ct;
      try (destruct (Z.even (Qfloor s)); lia); try lia; exfalso;
      repeat match goal with
      | H : Qcompare _ _ = Eq |- _ => apply Qeq_alt in H
      | H : Qcompare _ _ = Lt |- _ => apply Qlt_alt in H
      | H : Qcompare _ _ = Gt |- _ => apply Qgt_alt in H
      end; lra.
  - pose proof (round_int_ne_bounds s). pose proof (round_int_ne_bounds t). lia.
Qed.

Lemma round_int_ne_nonneg (s : Q) : (0 <= s)%Q -> 0 <= round_int_ne s.
Proof.
  intros H. pose proof (round_int_ne_bounds s).
  assert (Qfloor 0 <= Qfloor s) by (apply Qfloor_resp_le; assumption).
  change (Qfloor 0) with 0 in *. lia.
Qed.



Section Format.
Variables prec emin : Z.
Hypothesis prec_pos : 0 < prec.


Lemma mag_nonneg (x : Q) : (0 <= x)%Q -> (0 <= round_magnitude prec emin x)%Q.
Proof.
  intros Hx. unfold round_magnitude. apply Qmult_le_0_compat.
  - change 0%Q with (inject_Z 0). rewrite <- Zle_Qle. apply round_int_ne_nonneg.
    apply Qle_shift_div_l; [apply pow2_pos|]. rewrite Qmult_0_l. exact Hx.
  - apply Qlt_le_weak, pow2_pos.
Qed.

(** A power of two at or above [x] (at or below [x]) on the grid of [x]'s
    exponent bounds the rounded value. *)
Lemma mag_le_pow2 (x : Q) (k : Z) :
  ulp_exponent prec emin x <= k -> (x <= 2 ^ k)%Q -> (round_magnitude prec emin x <= 2 ^ k)%Q.
Proof.
  intros Hk Hx. unfold round_magnitude. set (e := ulp_exponent prec emin x) in *.
  replace k with ((k - e) + e) by lia. rewrite pow2_plus.
  apply Qmult_le_compat_r; [|apply Qlt_le_weak, pow2_pos].
  rewrite <- (pow2_inject (k - e)) by lia. rewrite <- Zle_Qle.
  rewrite <- (round_int_ne_Z (2 ^ (k - e))). apply round_int_ne_mono.
  apply Qle_shift_div_r; [apply pow2_pos|].
  rewrite pow2_inject by lia. rewrite <- pow2_plus.
  replace (k - e + e) with k by lia. exact Hx.
Qed.

Lemma mag_ge_pow2 (x : Q) (k : Z) :
  ulp_exponent prec emin x <= k -> (2 ^ k <= x)%Q -> (2 ^ k <= round_magnitude prec emin x)%Q.
Proof.
  intros Hk Hx. unfold round_magnitude. set (e := ulp_exponent prec emin x) in *.
  replace k with ((k - e) + e) at 1 by lia. rewrite pow2_plus.
  apply Qmult_le_compat_r; [|apply Qlt_le_weak, pow2_pos].
  rewrite <- (pow2_inject (k - e)) by lia. rewrite <- Zle_Qle.
  rewrite <- (round_int_ne_Z (2 ^ (k - e))) at 1. apply round_int_ne_mono.
  apply Qle_shift_div_l; [apply pow2_pos|].
  rewrite pow2_inject by lia. rewrite <- pow2_plus.
  replace (k - e + e) with k by lia. exact Hx.
Qed.

Lemma mag_mono (x y : Q) : (0 < x)%Q -> (x <= y)%Q -> (round_magnitude prec emin x <= round_magnitude prec emin y)%Q.
Proof.
  intros Hx Hxy.
  assert (Hy : (0 < y)%Q) by (eapply Qlt_le_trans; eassumption).
  assert (Hfl := floor_log2_mono x y Hx Hxy).
  destruct (floor_log2_spec x Hx) as [_ Hx2].
  destruct (floor_log2_spec y Hy) as [Hy1 _].
  destruct (Z.eq_dec (ulp_exponent prec emin x) (ulp_exponent prec emin y)) as [E|N].
  - unfold round_magnitude. rewrite E.
    apply Qmult_le_compat_r; [|apply Qlt_le_weak, pow2_pos].
    rewrite <- Zle_Qle. apply round_int_ne_mono.
    apply Qmult_le_compat_r; [exact Hxy|].
    apply Qlt_le_weak, Qinv_lt_0_compat, pow2_pos.
  - assert (Hlt : floor_log2 x < floor_log2 y
                  /\ ulp_exponent prec emin y = floor_log2 y + 1 - prec)
      by (unfold ulp_exponent in *; lia).
    destruct Hlt as [Hlt Hey].
    apply Qle_trans with (2 ^ floor_log2 y)%Q.
    + apply mag_le_pow2; [unfold ulp_exponent in *; lia|].
      apply Qlt_le_weak. eapply Qlt_le_trans; [exact Hx2|]. apply pow2_le. lia.
    + apply mag_ge_pow2; [lia|exact Hy1].
Qed.

Lemma round_ne_zero (x : Q) : (x == 0)%Q -> round_ne prec emin x = 0%Q.
Proof. intros H. unfold round_ne. apply Qeq_bool_iff in H. rewrite H. reflexivity. Qed.

Lemma round_ne_pos (x : Q) : (0 < x)%Q -> (round_ne prec emin x == round_magnitude prec emin x)%Q.
Proof.
  intros Hx. unfold round_ne.
  destruct (Qeq_bool x 0) eqn:E0.
  - apply Qeq_bool_iff in E0. rewrite E0 in Hx. discriminate.
  - destruct (Qle_bool 0 x) eqn:E1.
    + rewrite Qred_correct.
      replace (Qabs x) with x; [reflexivity|].
      destruct x as [n d]. unfold Qlt in Hx. simpl in Hx. simpl.
      rewrite Z.abs_eq by lia. reflexivity.
    + exfalso. apply Qlt_le_weak in Hx. apply Qle_bool_iff in Hx. congruence.
Qed.

Lemma round_ne_neg (x : Q) : (x < 0)%Q -> (round_ne prec emin x == - round_magnitude prec emin (- x))%Q.
Proof.
  intros Hx. unfold round_ne.
  destruct (Qeq_bool x 0) eqn:E0.
  - apply Qeq_bool_iff in E0. rewrite E0 in Hx. discriminate.
  - destruct (Qle_bool 0 x) eqn:E1.
    + apply Qle_bool_iff in E1. exfalso. exact (Qlt_not_le _ _ Hx E1).
    + rewrite Qred_correct.
      replace (Qabs x) with (- x)%Q; [reflexivity|].
      destruct x as [n d]. unfold Qlt in Hx. simpl in Hx. simpl.
      rewrite Z.abs_neq by lia. reflexivity.
Qed.

Lemma Q_sign_cases (x : Q) : (x < 0)%Q \/ (x == 0)%Q \/ (0 < x)%Q.
Proof.
  destruct (Q_dec x 0) as [[H|H]|H]; auto.
Qed.

Theorem round_ne_mono (x y : Q) :
  (x <= y)%Q -> (round_ne prec emin x <= round_ne prec emin y)%Q.
Proof.
  intros Hxy.
  destruct (Q_sign_cases x) as [Hx|[Hx|Hx]];
    destruct (Q_sign_cases y) as [Hy|[Hy|Hy]];
    try (exfalso; lra).
  - rewrite (round_ne_neg x Hx), (round_ne_neg y Hy).
    apply Qopp_le_compat. apply mag_mono; lra.
  - rewrite (round_ne_neg x Hx), (round_ne_zero y Hy).
    assert (H := mag_nonneg (- x)%Q). lra.
  - rewrite (round_ne_neg x Hx), (round_ne_pos y Hy).
    assert (H := mag_nonneg (- x)%Q). assert (H' := mag_nonneg y). lra.
  - rewrite (round_ne_zero x Hx), (round_ne_zero y Hy). apply Qle_refl.
  - rewrite (round_ne_zero x Hx), (round_ne_pos y Hy). apply mag_nonneg. lra.
  - rewrite (round_ne_pos x Hx), (round_ne_pos y Hy). apply mag_mono; assumption.
Qed.

(** Integers of fewer than [prec] bits are left as they are. *)
Lemma mag_exact_int (z : Z) :
  emin <= 0 -> 0 < z < 2 ^ prec -> (round_magnitude prec emin (inject_Z z) == inject_Z z)%Q.
Proof.
  intros He Hz.
  assert (Hq : (0 < inject_Z z)%Q)
    by (change 0%Q with (inject_Z 0); rewrite <- Zlt_Qlt; lia).
  destruct (floor_log2_spec _ Hq) as [Hlo _].
  assert (Hfl : floor_log2 (inject_Z z) < prec).
  { apply pow2_lt_inv. eapply Qle_lt_trans; [exact Hlo|].
    rewrite <- pow2_inject by lia. rewrite <- Zlt_Qlt. lia. }
  unfold round_magnitude. set (e := ulp_exponent prec emin (inject_Z z)).
  assert (Hle : e <= 0) by (unfold e, ulp_exponent; lia).
  assert (Hscaled : (inject_Z z / 2 ^ e == inject_Z (z * 2 ^ (- e)))%Q).
  { rewrite inject_Z_mult, pow2_inject by lia.
    rewrite Qpower_opp. reflexivity. }
  assert (Hr : round_int_ne (inject_Z z / 2 ^ e) = z * 2 ^ (- e)).
  { rewrite <- (round_int_ne_Z (z * 2 ^ (- e))).
    apply Z.le_antisymm; apply round_int_ne_mono; rewrite Hscaled; apply Qle_refl. }
  rewrite Hr, inject_Z_mult, pow2_inject by lia.
  rewrite <- Qmult_assoc, <- pow2_plus.
  replace (- e + e) with 0 by lia. apply Qmult_1_r.
Qed.

Lemma round_ne_exact_int (z : Z) :
  emin <= 0 -> Z.abs z < 2 ^ prec -> round_ne prec emin (inject_Z z) = inject_Z z.
Proof.
  intros He Hz.
  assert (Hcanon : forall n, Qred (inject_Z n) = inject_Z n).
  { intros n. apply Qcanon.Qred_identity. simpl. apply Z.gcd_1_r. }
  destruct (Z.lt_trichotomy z 0) as [Hneg|[->|Hpos]].
  - unfold round_ne.
    replace (Qeq_bool (inject_Z z) 0) with false
      by (symmetry; apply not_true_iff_false; intros E;
          apply Qeq_bool_iff in E; unfold Qeq in E; simpl in E; lia).
    replace (Qle_bool 0 (inject_Z z)) with false
      by (symmetry; apply not_true_iff_false; intros E;
          apply Qle_bool_iff in E; unfold Qle in E; simpl in E; lia).
    replace (Qabs (inject_Z z)) with (inject_Z (- z))
      by (unfold Qabs, inject_Z; rewrite Z.abs_neq by lia; reflexivity).
    rewrite (Qred_complete _ (inject_Z (- z))) by (apply mag_exact_int; lia).
    rewrite Hcanon. unfold Qopp, inject_Z. simpl. rewrite Z.opp_involutive. reflexivity.
  - reflexivity.
  - unfold round_ne.
    replace (Qeq_bool (inject_Z z) 0) with false
      by (symmetry; apply not_true_iff_false; intros E;
          apply Qeq_bool_iff in E; unfold Qeq in E; simpl in E; lia).
    replace (Qle_bool 0 (inject_Z z)) with true
      by (symmetry; apply Qle_bool_iff; unfold Qle; simpl; lia).
    replace (Qabs (inject_Z z)) with (inject_Z z)
      by (unfold Qabs, inject_Z; rewrite Z.abs_eq by lia; reflexivity).
    rewrite (Qred_complete _ (inject_Z z)) by (apply mag_exact_int; lia).
    apply Hcanon.
Qed.

End Format.


(** The result is off by at most half a unit in the last place: the
    fraction [2^-prec] of the exact value, or [2^(emin-1)] below the
    normal range. *)
Section Accuracy.
Variables prec emin : Z.



End Accuracy.

(** The IEEE 754 platform satisfies the rounding laws. *)
Lemma ieee754_double_rounding_laws : double_rounding_laws ieee754.
Proof.
  split; [intros x y; apply round_ne_mono; lia|].
  split; vm_compute; reflexivity.
Qed.

Lemma ieee754_reading_rounding_laws (read : QByteArray -> Z * QByteArray) :
  double_rounding_laws (ieee754_reading read).
Proof. exact ieee754_double_rounding_laws. Qed.


Lemma binary64_round_exact_int (z : Z) :
  Z.abs z < 2 ^ 53 -> binary64_round (inject_Z z) = inject_Z z.
Proof. intros H. apply round_ne_exact_int; lia. Qed.


(** [round_ne] against the Standard Library's specification of IEEE 754
    conversion and division. *)
Example round_ne_agrees_with_SpecFloat :
  (binary32_round 16777217 == SF2Q (binary_normalize 24 128 16777217 0 false))%Q
  /\ (binary32_round 16777219 == SF2Q (binary_normalize 24 128 16777219 0 false))%Q
  /\ (binary64_round (1 # 10)
       == SF2Q (SFdiv 53 1024 (binary_normalize 53 1024 1 0 false)
                              (binary_normalize 53 1024 10 0 false)))%Q
  /\ (binary64_round (2147483646 # 2147483647)
       == SF2Q (SFdiv 53 1024 (binary_normalize 53 1024 2147483646 0 false)
                              (binary_normalize 53 1024 2147483647 0 false)))%Q
  /\ (binary64_round (2147483647 # 2147483647)
       == SF2Q (SFdiv 53 1024 (binary_normalize 53 1024 2147483647 0 false)
                              (binary_normalize 53 1024 2147483647 0 false)))%Q.
Proof. vm_compute. repeat split. Qed.

(** ** Comparisons, bytes *)

Lemma Qlt_bool_iff (x y : Q) : Qlt_bool x y = true <-> (x < y)%Q.
Proof.
  unfold Qlt_bool. rewrite negb_true_iff. split; intro H.
  - apply Qnot_le_lt. intro Hle. apply Qle_bool_iff in Hle. congruence.
  - destruct (Qle_bool y x) eqn:E; [|reflexivity].
    apply Qle_bool_iff in E. exfalso. exact (Qlt_not_le _ _ H E).
Qed.

Lemma Qlt_bool_false_iff (x y : Q) : Qlt_bool x y = false <-> (y <= x)%Q.
Proof.
  unfold Qlt_bool. rewrite negb_false_iff. apply Qle_bool_iff.
Qed.

Lemma Qle_bool_false_iff (x y : Q) : Qle_bool x y = false <-> (y < x)%Q.
Proof.
  rewrite <- Qlt_bool_iff. unfold Qlt_bool.
  destruct (Qle_bool x y); simpl; split; congruence.
Qed.

(** The top three bits of an octet, read through [char] or through
    [unsigned int]. *)
Lemma msgType_of_octet (b : Z) :
  0 <= b < 256 -> msgType_of (to_char b) = b / 32 /\ msgType_of b = b / 32.
Proof.
  intros Hb.
  assert (Hall : forallb (fun n => let z := Z.of_nat n in
                   (msgType_of (to_char z) =? z / 32) && (msgType_of z =? z / 32))
                 (seq 0 256) = true) by (vm_compute; reflexivity).
  rewrite forallb_forall in Hall.
  specialize (Hall (Z.to_nat b)).
  cbv zeta in Hall. rewrite Z2Nat.id in Hall by lia.
  assert (Hin : In (Z.to_nat b) (seq 0 256)) by (apply in_seq; lia).
  apply Hall in Hin. apply andb_true_iff in Hin. destruct Hin as [H1 H2].
  apply Z.eqb_eq in H1, H2. split; assumption.
Qed.

(** ** The pending collection *)

Lemma QMultiMap_insert_In (k : Q) (v : QByteArray) (m : QMultiMap) (e : Q * QByteArray) :
  In e (QMultiMap_insert k v m) <-> e = (k, v) \/ In e m.
Proof.
  induction m as [|[k' v'] rest IH]; simpl.
  - intuition.
  - destruct (Qlt_bool k' k); simpl; rewrite ?IH; intuition.
Qed.

Lemma QMultiMap_insert_length (k : Q) (v : QByteArray) (m : QMultiMap) :
  List.length (QMultiMap_insert k v m) = S (List.length m).
Proof.
  induction m as [|[k' v'] rest IH]; simpl; [reflexivity|].
  destruct (Qlt_bool k' k); simpl; [rewrite IH|]; reflexivity.
Qed.

(** Insertion keeps the keys in order. *)
Lemma QMultiMap_insert_ordered (k : Q) (v : QByteArray) (m : QMultiMap) :
  QMultiMap_ordered m -> QMultiMap_ordered (QMultiMap_insert k v m).
Proof.
  unfold QMultiMap_ordered.
  induction m as [|[k' v'] rest IH]; intros Hs; simpl.
  - repeat constructor.
  - inversion Hs as [|? ? Hrest Hall]; subst.
    destruct (Qlt_bool k' k) eqn:E.
    + apply Qlt_bool_iff in E. constructor; [auto|].
      rewrite Forall_forall in *. intros e He.
      apply QMultiMap_insert_In in He. destruct He as [->|He]; simpl.
      * apply Qlt_le_weak; assumption.
      * apply Hall; assumption.
    + apply Qlt_bool_false_iff in E. constructor; [assumption|].
      constructor; [exact E|].
      rewrite Forall_forall in *. intros e He. simpl.
      apply Qle_trans with k'; [exact E|]. apply (Hall e He).
Qed.

(** Erasing from the front, as [fetchFrames] does, keeps them in order. *)
Lemma QMultiMap_ordered_tail (e : Q * QByteArray) (m : QMultiMap) :
  QMultiMap_ordered (e :: m) -> QMultiMap_ordered m.
Proof. intros H. inversion H; assumption. Qed.

(** Once an entry is later than [now], so is everything behind it. *)
Lemma ordered_all_late (now : Q) (m : QMultiMap) (k : Q) (v : QByteArray) :
  QMultiMap_ordered ((k, v) :: m) -> (now < k)%Q ->
  filter (due_at now) ((k, v) :: m) = []
  /\ filter (fun e => negb (due_at now e)) ((k, v) :: m) = (k, v) :: m.
Proof.
  intros Hs Hlt. inversion Hs as [|? ? _ Hall]; subst.
  assert (Hlate : forall e, In e ((k, v) :: m) -> due_at now e = false).
  { intros e [<-|He]; apply Qle_bool_false_iff; simpl; [assumption|].
    rewrite Forall_forall in Hall.
    apply Qlt_le_trans with k; [assumption|]. apply (Hall e He). }
  clear Hs Hall. revert Hlate. generalize ((k, v) :: m). clear.
  induction l as [|e l IH]; intros Hlate; [split; reflexivity|].
  simpl. rewrite (Hlate e (or_introl eq_refl)). simpl.
  destruct IH as [IH1 IH2]; [intros; apply Hlate; right; assumption|].
  rewrite IH1, IH2. split; reflexivity.
Qed.

Section Proofs.
Context {P : Platform}.

(** The loop hands over the due entries, front to back, and stops at the
    first later one. *)
Lemma fetch_loop_spec (user : string) (now : Q) (m : QMultiMap) (out : AudioOutput) :
  QMultiMap_ordered m ->
  fetch_loop user now m out
  = (filter (fun e => negb (due_at now e)) m,
     mkAudioOutput (ao_id out) (ao_priority out)
       (ao_frames out ++ map (fun e => decode_frame user (snd e))
                             (filter (due_at now) m))).
Proof.
  revert out. induction m as [|[k v] rest IH]; intros out Hs.
  - simpl. rewrite app_nil_r. destruct out; reflexivity.
  - cbn [fetch_loop]. destruct (Qlt_bool now k) eqn:E.
    + apply Qlt_bool_iff in E.
      destruct (ordered_all_late now rest k v Hs E) as [H1 H2].
      rewrite H1, H2. simpl. rewrite app_nil_r.
      destruct out; reflexivity.
    + apply Qlt_bool_false_iff in E.
      rewrite IH by (eapply QMultiMap_ordered_tail; eassumption).
      assert (Hd : due_at now (k, v) = true) by (apply Qle_bool_iff; exact E).
      cbn [filter]. rewrite Hd. cbn [negb map snd].
      unfold addFrameToBuffer. cbn [ao_id ao_priority ao_frames].
      destruct (decode_frame user v) as [fu fd fs ft]. cbn [bf_user bf_data bf_seq bf_type].
      rewrite <- app_assoc. reflexivity.
Qed.

Lemma filter_due_split (now : Q) (m : QMultiMap) :
  QMultiMap_ordered m ->
  m = filter (due_at now) m ++ filter (fun e => negb (due_at now e)) m.
Proof.
  induction m as [|[k v] rest IH]; intros Hs; [reflexivity|].
  destruct (Qle_bool k now) eqn:E.
  - assert (Hd : due_at now (k, v) = true) by exact E.
    cbn [filter]. rewrite Hd. cbn [negb app]. f_equal.
    apply IH. eapply QMultiMap_ordered_tail; eassumption.
  - apply Qle_bool_false_iff in E.
    destruct (ordered_all_late now rest k v Hs E) as [H1 H2].
    rewrite H1, H2. reflexivity.
Qed.

Lemma filter_ordered (f : Q * QByteArray -> bool) (m : QMultiMap) :
  QMultiMap_ordered m -> StronglySorted Qle (map fst (filter f m)).
Proof.
  unfold QMultiMap_ordered.
  induction m as [|e rest IH]; intros Hs; simpl; [constructor|].
  inversion Hs as [|? ? Hrest Hall]; subst.
  destruct (f e); simpl; [|auto].
  constructor; [auto|].
  rewrite Forall_forall in *. intros k Hk.
  apply in_map_iff in Hk. destruct Hk as [e' [<- He']].
  apply filter_In in He'. apply Hall. tauto.
Qed.

(** ** [LoopUser::fetchFrames] *)

(** C3.  With a sink present and the pending collection in key order,
    [fetchFrames] removes exactly the entries whose key is [<= now] and
    hands them to the sink in non-decreasing key order, each decoded from
    its header; it stops at the first entry later than [now], and every
    entry behind that one stays in the collection. *)
Theorem fetchFrames_drains_due_in_key_order
    (u : LoopUser) (g : Global) (out : AudioOutput) (clock_cmp clock_restart : Z) :
  ao g = Some out ->
  QMultiMap_ordered (qmPackets u) ->
  let now := double_of_int (elapsed (qetTicker u) clock_cmp) in
  let due := filter (due_at now) (qmPackets u) in
  let late := filter (fun e => negb (due_at now e)) (qmPackets u) in
  let u' := fst (LoopUser_fetchFrames u g clock_cmp clock_restart) in
  let g' := snd (LoopUser_fetchFrames u g clock_cmp clock_restart) in
  qmPackets u' = late
  /\ option_map ao_frames (ao g')
     = Some (ao_frames out ++ map (fun e => decode_frame (qsName u) (snd e)) due)
  /\ qmPackets u = due ++ late
  /\ StronglySorted Qle (map fst due)
  /\ (forall e, In e due -> (fst e <= now)%Q)
  /\ (forall e, In e late -> (now < fst e)%Q).
Proof.
  intros Hao Hs now due late u' g'.
  assert (Hsplit := filter_due_split now (qmPackets u) Hs).
  assert (Hrun : qmPackets u' = late
                 /\ option_map ao_frames (ao g')
                    = Some (ao_frames out
                            ++ map (fun e => decode_frame (qsName u) (snd e)) due)).
  { subst u' g'. unfold LoopUser_fetchFrames. rewrite Hao.
    destruct (qmPackets u) as [|e rest] eqn:Em.
    - simpl. rewrite Hao. subst due late. simpl. rewrite app_nil_r. auto.
    - cbn [QMultiMap_isEmpty]. fold now.
      rewrite (fetch_loop_spec _ now _ out Hs).
      subst due late. split; reflexivity. }
  destruct Hrun as [H1 H2].
  repeat split; try assumption.
  - apply filter_ordered; assumption.
  - intros e He. apply filter_In in He. apply Qle_bool_iff. apply He.
  - intros e He. apply filter_In in He. destruct He as [_ He].
    apply negb_true_iff in He. apply Qle_bool_false_iff. exact He.
Qed.

(** C5.  With a sink present and at least one pending entry, [fetchFrames]
    restarts the stall timer at the current clock, whether or not an entry
    was due; with nothing pending it returns before the timer is touched. *)
Theorem fetchFrames_restarts_stall_timer_when_pending
    (u : LoopUser) (g : Global) (out : AudioOutput) (clock_cmp clock_restart : Z) :
  ao g = Some out ->
  let u' := fst (LoopUser_fetchFrames u g clock_cmp clock_restart) in
  (qmPackets u <> [] ->
     qetLastFetch u' = clock_restart
     /\ elapsed (qetLastFetch u') clock_restart = 0)
  /\ (qmPackets u = [] ->
     LoopUser_fetchFrames u g clock_cmp clock_restart = (u, g)).
Proof.
  intros Hao u'. subst u'. unfold LoopUser_fetchFrames. rewrite Hao. split.
  - intros Hne. destruct (qmPackets u) as [|e rest] eqn:Em; [congruence|].
    cbn [QMultiMap_isEmpty].
    destruct (fetch_loop _ _ _ _) as [pending out']. simpl.
    unfold elapsed, restart. split; [reflexivity|lia].
  - intros ->. reflexivity.
Qed.


(** ** [RecordUser::addFrame], and [LoopUser::addFrame] without a sink *)

Lemma decode_frame_header (user : string) (b : Z) (rest : QByteArray) :
  0 <= b < 256 ->
  decode_frame user (b :: rest)
  = mkFrame user (b :: snd (pds_read_int rest)) (fst (pds_read_int rest)) (b / 32).
Proof.
  intros Hb. unfold decode_frame. cbn [pds_next].
  destruct (pds_read_int rest) as [iSeq payload]. cbn [fst snd].
  rewrite (proj2 (msgType_of_octet b Hb)).
  change 255 with (Z.ones 8). rewrite Z.land_ones by lia.
  rewrite Z.mod_small by lia. reflexivity.
Qed.

Lemma RecordUser_addFrame_sink (u : LoopUser) (g : Global) (out : AudioOutput)
    (packet : QByteArray) :
  ao g = Some out ->
  RecordUser_addFrame u g packet
  = (u, set_ao g (Some (mkAudioOutput (ao_id out) (ao_priority out)
                          (ao_frames out ++ [decode_frame (qsName u) packet])))).
Proof.
  intros Hao. unfold RecordUser_addFrame. rewrite Hao.
  destruct (decode_frame (qsName u) packet). reflexivity.
Qed.

Lemma RecordUser_addFrames_sink (packets : list QByteArray) (u : LoopUser)
    (settings : Settings) (out : AudioOutput) (inp : option AudioInput) :
  RecordUser_addFrames u (mkGlobal settings (Some out) inp) packets
  = (u, mkGlobal settings
          (Some (mkAudioOutput (ao_id out) (ao_priority out)
                   (ao_frames out ++ map (decode_frame (qsName u)) packets)))
          inp).
Proof.
  revert out. induction packets as [|p rest IH]; intros out.
  - simpl. rewrite app_nil_r. destruct out; reflexivity.
  - cbn [RecordUser_addFrames].
    rewrite (RecordUser_addFrame_sink u (mkGlobal settings (Some out) inp) out p eq_refl).
    unfold set_ao. cbn [s ai]. rewrite IH. cbn [ao_id ao_priority ao_frames map].
    rewrite <- app_assoc. reflexivity.
Qed.

Lemma RecordUser_addFrames_no_sink (packets : list QByteArray) (u : LoopUser)
    (g : Global) :
  ao g = None -> RecordUser_addFrames u g packets = (u, g).
Proof.
  intros Hao. induction packets as [|p rest IH]; [reflexivity|].
  cbn [RecordUser_addFrames]. unfold RecordUser_addFrame. rewrite Hao. exact IH.
Qed.

(** C9.  Whatever the settings (loss probability included), each
    [RecordUser::addFrame] call made while a sink is present appends the
    frame, decoded from its header, to the sink at once and leaves the
    user's own state (its pending collection) as it was; so do any number
    of consecutive calls.  Without a sink the call changes nothing. *)
Theorem RecordUser_addFrame_bypasses_scheduling
    (u : LoopUser) (settings : Settings) (inp : option AudioInput) :
  (forall out packet,
      RecordUser_addFrame u (mkGlobal settings (Some out) inp) packet
      = (u, mkGlobal settings
              (Some (mkAudioOutput (ao_id out) (ao_priority out)
                       (ao_frames out ++ [decode_frame (qsName u) packet])))
              inp))
  /\ (forall out packets,
      RecordUser_addFrames u (mkGlobal settings (Some out) inp) packets
      = (u, mkGlobal settings
              (Some (mkAudioOutput (ao_id out) (ao_priority out)
                       (ao_frames out ++ map (decode_frame (qsName u)) packets)))
              inp))
  /\ (forall b rest,
      0 <= b < 256 ->
      decode_frame (qsName u) (b :: rest)
      = mkFrame (qsName u) (b :: snd (pds_read_int rest))
                (fst (pds_read_int rest)) (b / 32))
  /\ (forall packet,
      RecordUser_addFrame u (mkGlobal settings None inp) packet
      = (u, mkGlobal settings None inp)).
Proof.
  repeat split.
  - intros out packet.
    rewrite (RecordUser_addFrame_sink u (mkGlobal settings (Some out) inp) out packet
               eq_refl).
    reflexivity.
  - intros out packets. apply RecordUser_addFrames_sink.
  - intros b rest Hb. apply decode_frame_header; assumption.
Qed.

Lemma LoopUser_addFrame_no_sink (u : LoopUser) (g : Global) (env : AddFrameEnv)
    (packet : QByteArray) :
  ao g = None -> dropped g env = false ->
  LoopUser_addFrame u g env packet
  = Some (set_qmPackets u
            (QMultiMap_insert (schedule_key u g env) packet (qmPackets u)), g).
Proof.
  intros Hao Hd. unfold LoopUser_addFrame. rewrite Hd, Hao.
  destruct (100 <? _); reflexivity.
Qed.

Lemma LoopUser_addFrames_no_sink (g : Global)
    (calls : list (AddFrameEnv * QByteArray)) :
  ao g = None ->
  Forall (fun c => dropped g (fst c) = false) calls ->
  forall u, exists u',
    LoopUser_addFrames u g calls = Some (u', g)
    /\ List.length (qmPackets u') = (List.length (qmPackets u) + List.length calls)%nat
    /\ (forall e, In e (qmPackets u) -> In e (qmPackets u'))
    /\ (forall c, In c calls -> In (snd c) (map snd (qmPackets u'))).
Proof.
  intros Hao Hall.
  induction Hall as [|[env packet] rest Hd _ IH]; intros u.
  - exists u. simpl. split; [reflexivity|]. split; [lia|]. split; tauto.
  - cbn [LoopUser_addFrames].
    rewrite (LoopUser_addFrame_no_sink u g env packet Hao Hd).
    set (u1 := set_qmPackets u _).
    destruct (IH u1) as [u' [Hrun [Hlen [Hkeep Hin]]]].
    exists u'. split; [exact Hrun|].
    assert (Hnew : In (schedule_key u g env, packet) (qmPackets u1)).
    { subst u1. cbn [qmPackets set_qmPackets].
      apply QMultiMap_insert_In. left. reflexivity. }
    split; [|split].
    + rewrite Hlen. subst u1. cbn [qmPackets set_qmPackets].
      rewrite QMultiMap_insert_length. simpl. lia.
    + intros e He. apply Hkeep. subst u1. cbn [qmPackets set_qmPackets].
      apply QMultiMap_insert_In. right. assumption.
    + intros c [<-|Hc]; [|apply Hin; assumption].
      cbn [fst snd]. apply in_map_iff.
      exists (schedule_key u g env, packet). split; [reflexivity|].
      apply Hkeep. exact Hnew.
Qed.

(** C10.  While no render device is active, every [LoopUser::addFrame]
    call that survives the loss draw inserts its frame into the pending
    collection, so that the collection grows by one entry per call;
    [RecordUser::addFrame] changes nothing in that situation. *)
Theorem addFrame_without_sink
    (u : LoopUser) (g : Global) (calls : list (AddFrameEnv * QByteArray)) :
  ao g = None ->
  Forall (fun c => dropped g (fst c) = false) calls ->
  (forall env packet, dropped g env = false ->
      LoopUser_addFrame u g env packet
      = Some (set_qmPackets u
                (QMultiMap_insert (schedule_key u g env) packet (qmPackets u)), g))
  /\ (exists u',
      LoopUser_addFrames u g calls = Some (u', g)
      /\ List.length (qmPackets u') = (List.length (qmPackets u) + List.length calls)%nat
      /\ forall c, In c calls -> In (snd c) (map snd (qmPackets u')))
  /\ (forall packet, RecordUser_addFrame u g packet = (u, g)).
Proof.
  intros Hao Hall. split; [|split].
  - intros env packet Hd. apply LoopUser_addFrame_no_sink; assumption.
  - destruct (LoopUser_addFrames_no_sink g calls Hao Hall u)
      as [u' [Hrun [Hlen [_ Hin]]]].
    exists u'. auto.
  - intros packet. unfold RecordUser_addFrame. rewrite Hao. reflexivity.
Qed.

(** ** [Audio::startOutput], [Audio::startInput] *)

Lemma Audio_startOutput_resolved (g : Global) (output : string) (out : AudioOutput) :
  AudioOutputRegistrar_newFromChoice output = Some out ->
  Audio_startOutput g output = set_ao g (Some (AudioOutput_start out HighPriority)).
Proof. intros H. unfold Audio_startOutput. cbn [ao set_ao]. rewrite H. reflexivity. Qed.

Lemma Audio_startInput_resolved (g : Global) (input : string) (inp : AudioInput) :
  AudioInputRegistrar_newFromChoice input = Some inp ->
  Audio_startInput g input = set_ai g (Some (AudioInput_start inp HighestPriority)).
Proof. intros H. unfold Audio_startInput. cbn [ai set_ai]. rewrite H. reflexivity. Qed.

(** C6.  When both selectors resolve, the render thread is started with
    [HighPriority] and the capture thread with [HighestPriority]: the
    capture priority is the greater one. *)
Theorem capture_priority_above_render_priority
    (g : Global) (input output : string) (inp : AudioInput) (out : AudioOutput) :
  AudioInputRegistrar_newFromChoice input = Some inp ->
  AudioOutputRegistrar_newFromChoice output = Some out ->
  render_priority (Audio_startOutput g output) = Some (Priority_value HighPriority)
  /\ capture_priority (Audio_startInput g input) = Some (Priority_value HighestPriority)
  /\ exists r c,
       render_priority (Audio_start g input output) = Some r
       /\ capture_priority (Audio_start g input output) = Some c
       /\ r < c.
Proof.
  intros Hi Ho. unfold Audio_start.
  rewrite (Audio_startInput_resolved g input inp Hi).
  rewrite !(Audio_startOutput_resolved _ output out Ho).
  split; [reflexivity|]. split; [reflexivity|].
  exists 4, 5. split; [reflexivity|]. split; [reflexivity|lia].
Qed.

(** After the assignment the device that the handle held is out of the
    process-wide state for good; the calling thread destroys it there and
    then exactly when no other thread holds a reference, and otherwise it
    lives until another thread drops the last one. *)
Lemma replaced_other_inv (st : Replaced) (a : OtherAction) :
  in_global (rp_device st) = false /\ in_local (rp_device st) = false
  /\ (rp_destroyed st = Some ControlThread \/ rp_destroyed st = Some OtherThread
      -> elsewhere (rp_device st) = O)
  /\ (rp_destroyed st = None -> (1 <= elsewhere (rp_device st))%nat) ->
  let st' := replaced_other st a in
  in_global (rp_device st') = false /\ in_local (rp_device st') = false
  /\ (rp_destroyed st' = Some ControlThread \/ rp_destroyed st' = Some OtherThread
      -> elsewhere (rp_device st') = O)
  /\ (rp_destroyed st' = None -> (1 <= elsewhere (rp_device st'))%nat)
  /\ (rp_destroyed st' = Some ControlThread <-> rp_destroyed st = Some ControlThread).
Proof.
  destruct st as [[gl lo m] d]. cbn [rp_device rp_destroyed in_global in_local elsewhere].
  intros [-> [-> [Hd Hn]]].
  destruct d as [[|]|]; [rewrite (Hd (or_introl eq_refl)) | rewrite (Hd (or_intror eq_refl)) | ];
    destruct a; try (destruct m as [|[|m]]);
    cbn; repeat split; intros; try discriminate; try reflexivity; try lia;
    try (specialize (Hn eq_refl); lia);
    repeat match goal with H : _ \/ _ |- _ => destruct H end; try discriminate.
Qed.

Lemma replaced_after_spec (n : nat) (others : list OtherAction) :
  let old := replaced_after n others in
  in_global (rp_device old) = false /\ in_local (rp_device old) = false
  /\ (rp_destroyed old = Some ControlThread \/ rp_destroyed old = Some OtherThread
      -> elsewhere (rp_device old) = O)
  /\ (rp_destroyed old = None -> (1 <= elsewhere (rp_device old))%nat)
  /\ (rp_destroyed old = Some ControlThread <-> n = O).
Proof.
  unfold replaced_after.
  set (st0 := assign_global (mkReplaced (mkOwners true false n) None)).
  assert (H0 : in_global (rp_device st0) = false /\ in_local (rp_device st0) = false
               /\ (rp_destroyed st0 = Some ControlThread \/ rp_destroyed st0 = Some OtherThread
                   -> elsewhere (rp_device st0) = O)
               /\ (rp_destroyed st0 = None -> (1 <= elsewhere (rp_device st0))%nat)
               /\ (rp_destroyed st0 = Some ControlThread <-> n = O)).
  { unfold st0. destruct n; cbn; repeat split; intros; try discriminate;
      try reflexivity; try lia;
      repeat match goal with H : _ \/ _ |- _ => destruct H end; discriminate. }
  clearbody st0. revert st0 H0.
  induction others as [|a rest IH]; intros st0 H0; [exact H0|].
  cbn [fold_left]. apply IH.
  destruct H0 as [Hg [Hl [Hd [Hn Hc]]]].
  destruct (replaced_other_inv st0 a (conj Hg (conj Hl (conj Hd Hn))))
    as [Hg' [Hl' [Hd' [Hn' Hc']]]].
  repeat split; try assumption; intros; try tauto.
Qed.

(** C7.  For each direction on its own: when the selector does not
    resolve, the call installs no device and leaves the handle of that
    direction absent, whatever it held before; the settings and the handle
    of the other direction are untouched, and with no device active before
    the call nothing changes at all.  A device that the handle did hold is
    dropped by the assignment itself, with no wait: it is destroyed by the
    calling thread exactly when no other thread holds a reference at that
    moment; otherwise it stays alive for as long as one is held and is
    destroyed by whichever other thread releases the last. *)
Theorem start_with_unresolved_selector_clears_handle
    (g : Global) (input output : string) (n : nat) (others : list OtherAction) :
  (AudioOutputRegistrar_newFromChoice output = None ->
     Audio_startOutput g output = mkGlobal (s g) None (ai g)
     /\ (ao g = None -> Audio_startOutput g output = g))
  /\ (AudioInputRegistrar_newFromChoice input = None ->
     Audio_startInput g input = mkGlobal (s g) (ao g) None
     /\ (ai g = None -> Audio_startInput g input = g))
  /\ (let old := replaced_after n others in
      in_global (rp_device old) = false
      /\ other_step Acquire (rp_device old) = rp_device old
      /\ (rp_destroyed old = Some ControlThread <-> n = O)
      /\ ((1 <= n)%nat ->
          (rp_destroyed old = None <-> (1 <= elsewhere (rp_device old))%nat)
          /\ (rp_destroyed old = Some OtherThread <-> elsewhere (rp_device old) = O))).
Proof.
  split; [|split].
  - intros Ho. unfold Audio_startOutput. cbn [ao set_ao]. rewrite Ho.
    unfold set_ao. split; [reflexivity|].
    intros Hg. destruct g; simpl in *; subst; reflexivity.
  - intros Hi. unfold Audio_startInput. cbn [ai set_ai]. rewrite Hi.
    unfold set_ai. split; [reflexivity|].
    intros Hg. destruct g; simpl in *; subst; reflexivity.
  - intros old.
    destruct (replaced_after_spec n others) as [Hg [Hl [Hd [Hn Hc]]]].
    fold old in Hg, Hl, Hd, Hn, Hc.
    split; [exact Hg|]. split; [|split; [exact Hc|]].
    + destruct (rp_device old) as [gl lo m]. cbn in Hg. subst gl. reflexivity.
    + intros Hn1. split; split; intros Hx.
      * apply Hn; exact Hx.
      * destruct (rp_destroyed old) as [[|]|]; [| |reflexivity].
        -- assert (n = O) by (apply Hc; reflexivity). lia.
        -- specialize (Hd (or_intror eq_refl)). lia.
      * apply Hd. right. exact Hx.
      * destruct (rp_destroyed old) as [[|]|]; [|reflexivity|].
        -- assert (n = O) by (apply Hc; reflexivity). lia.
        -- specialize (Hn eq_refl). lia.
Qed.

(** ** [Audio::stopOutput] *)

Ltac owners_cases :=
  repeat match goal with
  | o : Owners |- _ => destruct o as [? ? ?]
  | H : _ /\ _ |- _ => destruct H
  end;
  cbn [in_global in_local elsewhere] in *; subst.

Lemma stopOutput_inv_step (st : StopOutput) (a : StopOutputAction) :
  stopOutput_inv st -> stopOutput_inv (stopOutput_step st a).
Proof.
  destruct st as [pc o d]. unfold stopOutput_inv. cbn [so_pc so_device so_destroyed].
  intros H.
  destruct a as [|[| |]]; destruct pc; owners_cases;
    try (cbn; repeat split; reflexivity);
    try (match goal with n : nat |- _ => destruct n end;
         cbn; repeat split; reflexivity).
Qed.

Lemma stopOutput_inv_run (schedule : list StopOutputAction) (st : StopOutput) :
  stopOutput_inv st -> stopOutput_inv (stopOutput_run schedule st).
Proof.
  unfold stopOutput_run. revert st.
  induction schedule as [|a rest IH]; intros st H; [exact H|].
  simpl. apply IH. apply stopOutput_inv_step. exact H.
Qed.

Lemma stopOutput_inv_call (n : nat) : stopOutput_inv (stopOutput_call n).
Proof. cbn. repeat split. Qed.

(** The call returns once the other threads have dropped their references. *)
Lemma stopOutput_returns (n : nat) :
  so_pc (stopOutput_run (stopOutput_prompt_schedule n) (stopOutput_call n))
  = SO_returned.
Proof.
  unfold stopOutput_prompt_schedule, stopOutput_run.
  rewrite fold_left_app. cbn [fold_left stopOutput_step stopOutput_call
    stopOutput_control so_pc so_device so_destroyed copy_global reset_global
    in_global in_local elsewhere].
  rewrite fold_left_app.
  assert (Hrel : forall k d,
             fold_left stopOutput_step (repeat (SO_other Release) k)
               (mkStopOutput SO_wait (mkOwners false true k) d)
             = mkStopOutput SO_wait (mkOwners false true 0) d).
  { induction k as [|k IH]; intros d; [reflexivity|].
    cbn [repeat fold_left]. rewrite <- (IH d). f_equal. }
  match goal with
  | |- context [fold_left _ (repeat _ n) ?s] =>
      replace s with (mkStopOutput SO_wait (mkOwners false true n) None)
  end.
  - rewrite Hrel. reflexivity.
  - f_equal; cbn; reflexivity.
Qed.

(** ** [Audio::stop] *)

Lemma stop_inv_step (st : Stop) (a : StopAction) :
  stop_inv st -> stop_inv (stop_step st a).
Proof.
  destruct st as [pc i o di dO]. unfold stop_inv, owned.
  cbn [st_pc st_ai st_ao st_ai_destroyed st_ao_destroyed].
  intros H.
  destruct a as [|[|] [| |]]; destruct pc; owners_cases;
    repeat match goal with
    | H : true = true -> _ |- _ => specialize (H eq_refl); subst
    | H : false = true -> _ |- _ => clear H
    end;
    try (cbn; repeat split; intros; try discriminate; reflexivity);
    try (match goal with n : nat |- _ => destruct n end;
         cbn; repeat split; intros; try discriminate; reflexivity);
    try (match goal with n : nat, m : nat |- _ => destruct n; destruct m end;
         cbn; repeat split; intros; try discriminate; reflexivity).
Qed.

Lemma stop_inv_run (schedule : list StopAction) (st : Stop) :
  stop_inv st -> stop_inv (stop_run schedule st).
Proof.
  unfold stop_run. revert st.
  induction schedule as [|a rest IH]; intros st H; [exact H|].
  simpl. apply IH. apply stop_inv_step. exact H.
Qed.

Lemma stop_inv_call (ni no : nat) : stop_inv (stop_call ni no).
Proof. cbn. unfold owned. cbn. repeat split; intros; discriminate. Qed.

(** The call returns once the other threads have dropped their references. *)
Lemma stop_returns (ni no : nat) :
  st_pc (stop_run (stop_prompt_schedule ni no) (stop_call ni no)) = ST_returned.
Proof.
  unfold stop_prompt_schedule, stop_run.
  rewrite !fold_left_app.
  assert (Hi : forall k o d1 d2,
             fold_left stop_step (repeat (ST_other Capture Release) k)
               (mkStop ST_test_ai (mkOwners false true k) o d1 d2)
             = mkStop ST_test_ai (mkOwners false true 0) o d1 d2).
  { induction k as [|k IH]; intros o d1 d2; [reflexivity|].
    cbn [repeat fold_left]. rewrite <- (IH o d1 d2). f_equal. }
  assert (Ho : forall k i d1 d2,
             fold_left stop_step (repeat (ST_other Render Release) k)
               (mkStop ST_test_ai i (mkOwners false true k) d1 d2)
             = mkStop ST_test_ai i (mkOwners false true 0) d1 d2).
  { induction k as [|k IH]; intros i d1 d2; [reflexivity|].
    cbn [repeat fold_left]. rewrite <- (IH i d1 d2). f_equal. }
  replace (fold_left stop_step [ST_control; ST_control; ST_control; ST_control]
             (stop_call ni no))
    with (mkStop ST_test_ai (mkOwners false true ni) (mkOwners false true no) None None)
    by (cbn; reflexivity).
  rewrite Hi, Ho. reflexivity.
Qed.

(** ** [LoopUser::addFrame] *)

Section Rounding.
Hypothesis laws : double_rounding_laws P.

Lemma to_double_mono (x y : Q) : (x <= y)%Q -> (to_double x <= to_double y)%Q.
Proof. apply laws. Qed.

Lemma to_double_Qeq (x y : Q) : (x == y)%Q -> (to_double x == to_double y)%Q.
Proof.
  intros H. apply Qle_antisym; apply to_double_mono; rewrite H; apply Qle_refl.
Qed.

Lemma to_double_nonneg (x : Q) : (0 <= x)%Q -> (0 <= to_double x)%Q.
Proof.
  intros H. destruct laws as [_ [H0 _]]. rewrite <- H0. apply to_double_mono. exact H.
Qed.

Lemma double_of_int_ge_1 (z : Z) : 1 <= z -> (1 <= double_of_int z)%Q.
Proof.
  intros H. destruct laws as [_ [_ H1]]. rewrite <- H1. apply to_double_mono.
  change 1%Q with (inject_Z 1). rewrite <- Zle_Qle. exact H.
Qed.

(** [DOUBLE_RAND] lies in the closed interval [0, 1]. *)
Lemma DOUBLE_RAND_range (rand : Z) :
  0 < RAND_MAX -> 0 <= rand <= RAND_MAX ->
  (0 <= DOUBLE_RAND rand <= 1)%Q.
Proof.
  intros HR Hr. unfold DOUBLE_RAND, double_div.
  set (a := double_of_int rand). set (b := double_of_int RAND_MAX).
  assert (Ha : (0 <= a)%Q).
  { apply to_double_nonneg. change 0%Q with (inject_Z 0). rewrite <- Zle_Qle. lia. }
  assert (Hab : (a <= b)%Q).
  { apply to_double_mono. rewrite <- Zle_Qle. lia. }
  assert (Hb : (0 < b)%Q).
  { apply Qlt_le_trans with 1%Q; [reflexivity|]. apply double_of_int_ge_1. lia. }
  destruct laws as [_ [H0 H1]]. split.
  - rewrite <- H0. apply to_double_mono. apply Qle_shift_div_l; [exact Hb|].
    rewrite Qmult_0_l. exact Ha.
  - rewrite <- H1. apply to_double_mono. apply Qle_shift_div_r; [exact Hb|].
    rewrite Qmult_1_l. exact Hab.
Qed.

(** At [rand() = RAND_MAX] the draw is exactly 1. *)
Lemma DOUBLE_RAND_at_RAND_MAX : 0 < RAND_MAX -> (DOUBLE_RAND RAND_MAX == 1)%Q.
Proof.
  intros HR. unfold DOUBLE_RAND, double_div.
  assert (Hb : (0 < double_of_int RAND_MAX)%Q).
  { apply Qlt_le_trans with 1%Q; [reflexivity|]. apply double_of_int_ge_1. lia. }
  destruct laws as [_ [_ H1]].
  transitivity (to_double 1); [|exact H1]. apply to_double_Qeq.
  field. intros H0. rewrite H0 in Hb. exact (Qlt_irrefl _ Hb).
Qed.


(** With loss probability 1, the draw [rand() = RAND_MAX] is not below it. *)
Lemma full_loss_not_dropped_at_RAND_MAX (g : Global) (env : AddFrameEnv) :
  0 < RAND_MAX -> (dPacketLoss (s g) == 1)%Q -> rand1 env = RAND_MAX ->
  dropped g env = false.
Proof.
  intros HR Hloss Hrand. unfold dropped. apply Qlt_bool_false_iff.
  rewrite Hrand, Hloss, (DOUBLE_RAND_at_RAND_MAX HR). apply Qle_refl.
Qed.






End Rounding.




(** ** The pending collection stays in key order *)

Lemma QMultiMap_ordered_filter (f : Q * QByteArray -> bool) (m : QMultiMap) :
  QMultiMap_ordered m -> QMultiMap_ordered (filter f m).
Proof.
  unfold QMultiMap_ordered.
  induction m as [|e rest IH]; intros Hs; simpl; [constructor|].
  inversion Hs as [|? ? Hrest Hall]; subst.
  destruct (f e); [|auto].
  constructor; [auto|].
  rewrite Forall_forall in *. intros e' He'.
  apply filter_In in He'. apply Hall. tauto.
Qed.

Lemma LoopUser_new_ordered (clock1 clock2 : Z) :
  QMultiMap_ordered (qmPackets (LoopUser_new clock1 clock2)).
Proof. constructor. Qed.

Lemma LoopUser_addFrame_ordered (u u' : LoopUser) (g g' : Global)
    (env : AddFrameEnv) (packet : QByteArray) :
  QMultiMap_ordered (qmPackets u) ->
  LoopUser_addFrame u g env packet = Some (u', g') ->
  QMultiMap_ordered (qmPackets u').
Proof.
  intros Hs. unfold LoopUser_addFrame.
  assert (Hins := QMultiMap_insert_ordered (schedule_key u g env) packet _ Hs).
  destruct (dropped g env); [intros [= <- _]; exact Hs|].
  destruct (100 <? _); [destruct (ao g); [destruct (QByteArray_at packet 0)|]|];
    try discriminate; intros [= <- _]; exact Hins.
Qed.

Lemma LoopUser_fetchFrames_ordered (u : LoopUser) (g : Global)
    (clock_cmp clock_restart : Z) :
  QMultiMap_ordered (qmPackets u) ->
  QMultiMap_ordered (qmPackets (fst (LoopUser_fetchFrames u g clock_cmp clock_restart))).
Proof.
  intros Hs. unfold LoopUser_fetchFrames.
  destruct (ao g) as [out|]; [|exact Hs].
  destruct (QMultiMap_isEmpty (qmPackets u)); [exact Hs|].
  rewrite (fetch_loop_spec _ _ _ out Hs). cbn [fst qmPackets set_qetLastFetch set_qmPackets].
  apply QMultiMap_ordered_filter. exact Hs.
Qed.

(** ** More on the frame path *)

Lemma msgType_of_range (x : Z) : 0 <= msgType_of x < 8.
Proof.
  unfold msgType_of. change 7 with (Z.ones 3). rewrite Z.land_ones by lia.
  apply Z.mod_pos_bound. lia.
Qed.

Lemma decode_frame_from (user : string) (data : QByteArray) :
  frame_from user (decode_frame user data).
Proof.
  unfold decode_frame, frame_from.
  destruct (pds_next data) as [msgFlags after_flags].
  destruct (pds_read_int after_flags) as [iSeq payload]. cbn.
  split; [reflexivity|apply msgType_of_range].
Qed.

Lemma addFrameToBuffer_sink_after (out : AudioOutput) (f : BufferedFrame) :
  addFrameToBuffer out (bf_user f) (bf_data f) (bf_seq f) (bf_type f)
  = sink_after out [f].
Proof. destruct f. reflexivity. Qed.

Lemma sink_after_nil (out : AudioOutput) : sink_after out [] = out.
Proof. unfold sink_after. rewrite app_nil_r. destruct out; reflexivity. Qed.

Lemma sink_after_app (out : AudioOutput) (a b : list BufferedFrame) :
  sink_after (sink_after out a) b = sink_after out (a ++ b).
Proof. unfold sink_after. cbn. rewrite app_assoc. reflexivity. Qed.

(** The loop takes a prefix of due entries, whatever the order of the
    collection, and stops in front of an entry that is not due. *)
Lemma fetch_loop_prefix (user : string) (now : Q) (m : QMultiMap) (out : AudioOutput) :
  exists taken,
    m = taken ++ fst (fetch_loop user now m out)
    /\ Forall (fun e => due_at now e = true) taken
    /\ snd (fetch_loop user now m out)
       = sink_after out (map (fun e => decode_frame user (snd e)) taken)
    /\ match fst (fetch_loop user now m out) with
       | [] => True
       | e :: _ => due_at now e = false
       end.
Proof.
  revert out. induction m as [|[k v] rest IH]; intros out.
  - exists []. cbn. rewrite sink_after_nil. auto.
  - cbn [fetch_loop]. destruct (Qlt_bool now k) eqn:E.
    + exists []. cbn [fst snd app map]. rewrite sink_after_nil.
      repeat split; [constructor|].
      apply Qlt_bool_iff in E. apply Qle_bool_false_iff. exact E.
    + rewrite addFrameToBuffer_sink_after.
      destruct (IH (sink_after out [decode_frame user v]))
        as [taken [Hm [Hdue [Hout Hhead]]]].
      exists ((k, v) :: taken). repeat split.
      * cbn [app]. f_equal. exact Hm.
      * constructor; [|exact Hdue].
        apply Qlt_bool_false_iff in E. apply Qle_bool_iff. exact E.
      * rewrite Hout, sink_after_app. reflexivity.
      * exact Hhead.
Qed.


Lemma LoopUser_addFrame_effect
    (u u' : LoopUser) (g g' : Global) (env : AddFrameEnv) (packet : QByteArray) :
  LoopUser_addFrame u g env packet = Some (u', g') ->
  qsName u' = qsName u /\ qetTicker u' = qetTicker u
  /\ qetLastFetch u' = qetLastFetch u
  /\ s g' = s g /\ ai g' = ai g
  /\ (if dropped g env then qmPackets u' = qmPackets u /\ g' = g
      else qmPackets u'
           = QMultiMap_insert (schedule_key u g env) packet (qmPackets u))
  /\ match ao g with
     | None => g' = g
     | Some out =>
         ao g' = Some out
         \/ exists t, 0 <= t < 8
                      /\ ao g' = Some (sink_after out [mkFrame (qsName u) [] 0 t])
     end.
Proof.
  unfold LoopUser_addFrame. cbn [qetLastFetch set_qmPackets qsName].
  destruct (dropped g env).
  { intros [= <- <-]. repeat split; auto. destruct (ao g); auto. }
  destruct (100 <? _).
  - destruct (ao g) as [out|] eqn:Hao.
    + destruct (QByteArray_at packet 0) as [c|]; [|discriminate].
      intros [= <- <-]. cbn. repeat split; auto.
      right. exists (msgType_of c). split; [apply msgType_of_range|reflexivity].
    + intros [= <- <-]. cbn. repeat split; auto.
  - intros [= <- <-]. cbn. repeat split; auto. destruct (ao g); auto.
Qed.

Lemma Permutation_QMultiMap_insert (k : Q) (v : QByteArray) (m : QMultiMap) :
  Permutation ((k, v) :: m) (QMultiMap_insert k v m).
Proof.
  induction m as [|[k' v'] rest IH]; cbn; [reflexivity|].
  destruct (Qlt_bool k' k); [|reflexivity].
  rewrite perm_swap. constructor. exact IH.
Qed.

(** X2.  A completed [LoopUser::addFrame] leaves the user's name and both
    timers, the settings and the capture handle as they were.  A dropped
    frame changes nothing at all; a surviving one is added to the pending
    entries, none of which is lost or altered.  The render device, if any,
    is either untouched or receives one frame with empty payload and
    sequence number 0 - the packet's own payload is never handed over by
    [addFrame]; without a device the process-wide state is unchanged. *)
Theorem LoopUser_addFrame_touches_only_pending_and_primes
    (u u' : LoopUser) (g g' : Global) (env : AddFrameEnv) (packet : QByteArray) :
  LoopUser_addFrame u g env packet = Some (u', g') ->
  qsName u' = qsName u /\ qetTicker u' = qetTicker u
  /\ qetLastFetch u' = qetLastFetch u
  /\ s g' = s g /\ ai g' = ai g
  /\ (dropped g env = true -> u' = u /\ g' = g)
  /\ (dropped g env = false ->
      exists key, Permutation ((key, packet) :: qmPackets u) (qmPackets u'))
  /\ match ao g with
     | None => g' = g
     | Some out =>
         exists extra,
           ao g' = Some (sink_after out extra)
           /\ (List.length extra <= 1)%nat
           /\ Forall (fun f => bf_data f = [] /\ bf_seq f = 0
                               /\ frame_from (qsName u) f) extra
     end.
Proof.
  intros H. destruct (LoopUser_addFrame_effect _ _ _ _ _ _ H)
    as [Hn [Ht [Hf [Hs [Hai [Hp Hsink]]]]]].
  split; [exact Hn|]. split; [exact Ht|]. split; [exact Hf|].
  split; [exact Hs|]. split; [exact Hai|]. split; [|split].
  - intros Hd. rewrite Hd in Hp. destruct Hp as [Hp ->]. split; [|reflexivity].
    destruct u, u'; cbn in *; subst; reflexivity.
  - intros Hd. rewrite Hd in Hp. exists (schedule_key u g env).
    rewrite Hp. apply Permutation_QMultiMap_insert.
  - destruct (ao g) as [out|]; [|exact Hsink].
    destruct Hsink as [Hsame|[t [Hrange Hprime]]].
    + exists []. rewrite sink_after_nil. repeat split; auto.
    + exists [mkFrame (qsName u) [] 0 t]. split; [exact Hprime|].
      split; [cbn; lia|].
      constructor; [|constructor]. cbn. unfold frame_from. cbn. auto.
Qed.

Lemma LoopUser_fetchFrames_effect (u : LoopUser) (g : Global)
    (clock_cmp clock_restart : Z) :
  let now := double_of_int (elapsed (qetTicker u) clock_cmp) in
  let u' := fst (LoopUser_fetchFrames u g clock_cmp clock_restart) in
  let g' := snd (LoopUser_fetchFrames u g clock_cmp clock_restart) in
  exists taken,
    qmPackets u = taken ++ qmPackets u'
    /\ Forall (fun e => due_at now e = true) taken
    /\ match ao g with
       | None => taken = [] /\ u' = u /\ g' = g
       | Some out =>
           ao g' = Some (sink_after out
                           (map (fun e => decode_frame (qsName u) (snd e)) taken))
           /\ match qmPackets u' with
              | [] => True
              | e :: _ => due_at now e = false
              end
       end
    /\ qsName u' = qsName u /\ qetTicker u' = qetTicker u
    /\ (qetLastFetch u' = qetLastFetch u \/ ao g <> None)
    /\ s g' = s g /\ ai g' = ai g.
Proof.
  intros now u' g'. subst u' g'. unfold LoopUser_fetchFrames.
  destruct (ao g) as [out|] eqn:Hao.
  - destruct (qmPackets u) as [|e rest] eqn:Em.
    + exists []. cbn. rewrite Hao, Em, sink_after_nil.
      repeat split; auto.
    + cbn [QMultiMap_isEmpty]. fold now.
      destruct (fetch_loop_prefix (qsName u) now (e :: rest) out)
        as [taken [Hm [Hdue [Hout Hhead]]]].
      destruct (fetch_loop (qsName u) now (e :: rest) out) as [pending out'].
      cbn [fst snd] in *. subst out'. exists taken. cbn.
      repeat split; auto. right. discriminate.
  - exists []. cbn. repeat split; auto.
Qed.

(** X3.  Whatever the pending collection holds, [LoopUser::fetchFrames]
    loses and duplicates nothing: the entries it takes are a front part
    of the collection, all with key [<= now]; what it takes is what the
    render device receives, decoded, in that order; the rest stays
    pending, and the first entry left is later than [now].  Without a
    render device it takes nothing and changes nothing. *)
Theorem LoopUser_fetchFrames_conserves_frames (u : LoopUser) (g : Global)
    (clock_cmp clock_restart : Z) :
  let now := double_of_int (elapsed (qetTicker u) clock_cmp) in
  let u' := fst (LoopUser_fetchFrames u g clock_cmp clock_restart) in
  let g' := snd (LoopUser_fetchFrames u g clock_cmp clock_restart) in
  exists taken,
    qmPackets u = taken ++ qmPackets u'
    /\ (forall e, In e taken -> (fst e <= now)%Q)
    /\ match ao g with
       | None => taken = [] /\ u' = u /\ g' = g
       | Some out =>
           ao g' = Some (sink_after out
                           (map (fun e => decode_frame (qsName u) (snd e)) taken))
           /\ match qmPackets u' with
              | [] => True
              | e :: _ => (now < fst e)%Q
              end
       end.
Proof.
  intros now u' g'.
  destruct (LoopUser_fetchFrames_effect u g clock_cmp clock_restart)
    as [taken [Hm [Hdue [Hsink _]]]].
  fold now u' g' in Hm, Hdue, Hsink.
  exists taken. split; [exact Hm|]. split.
  - intros e He. rewrite Forall_forall in Hdue. apply Qle_bool_iff. apply Hdue, He.
  - destruct (ao g) as [out|]; [|exact Hsink].
    destruct Hsink as [Hout Hhead]. split; [exact Hout|].
    destruct (qmPackets u') as [|e rest]; [exact I|].
    apply Qle_bool_false_iff. exact Hhead.
Qed.

Lemma QMultiMap_ordered_app_r (a b : QMultiMap) :
  QMultiMap_ordered (a ++ b) -> QMultiMap_ordered b.
Proof.
  induction a as [|e a IH]; intros H; [exact H|].
  apply IH. eapply QMultiMap_ordered_tail. exact H.
Qed.

Lemma LoopUser_step_invariants (u u' : LoopUser) (g g' : Global) (op : LoopOp) :
  QMultiMap_ordered (qmPackets u) ->
  LoopUser_step u g op = Some (u', g') ->
  qsName u' = qsName u /\ qetTicker u' = qetTicker u
  /\ s g' = s g /\ ai g' = ai g
  /\ QMultiMap_ordered (qmPackets u')
  /\ match ao g with
     | None => g' = g /\ qetLastFetch u' = qetLastFetch u
     | Some out =>
         exists extra,
           ao g' = Some (sink_after out extra)
           /\ Forall (frame_from (qsName u)) extra
     end.
Proof.
  intros Hs. destruct op as [env packet|clock_cmp clock_restart]; cbn [LoopUser_step].
  - intros H.
    assert (Ho := LoopUser_addFrame_ordered _ _ _ _ _ _ Hs H).
    destruct (LoopUser_addFrame_effect _ _ _ _ _ _ H)
      as [Hn [Ht [Hf [Hst [Hai [_ Hsink]]]]]].
    repeat split; try assumption.
    destruct (ao g) as [out|]; [|auto].
    destruct Hsink as [Hsame|[t [Hrange Hprime]]].
    + exists []. rewrite sink_after_nil. auto.
    + exists [mkFrame (qsName u) [] 0 t]. split; [exact Hprime|].
      constructor; [|constructor]. split; [reflexivity|exact Hrange].
  - intros [= Hfetch].
    destruct (LoopUser_fetchFrames_effect u g clock_cmp clock_restart)
      as [taken [Hm [_ [Hsink [Hn [Ht [Hf [Hst Hai]]]]]]]].
    rewrite Hfetch in *. cbn [fst snd] in *.
    repeat split; try assumption.
    + rewrite Hm in Hs. eapply QMultiMap_ordered_app_r. exact Hs.
    + destruct (ao g) as [out|].
      * destruct Hsink as [Hout _]. eexists. split; [exact Hout|].
        apply Forall_forall. intros f Hf'. apply in_map_iff in Hf'.
        destruct Hf' as [e [<- _]]. apply decode_frame_from.
      * destruct Hsink as [_ [Hu Hg]]. rewrite Hu, Hg. auto.
Qed.

(** X4.  Over any sequence of [addFrame] and [fetchFrames] calls on one
    loopback user that starts with its pending collection in key order:
    the collection stays in key order; the user's name and ticker, the
    settings and the capture handle never change; an active render device
    stays the same device and only ever receives further frames, each
    labelled with this user and carrying a three-bit message type; and
    while no render device is active the process-wide state and the stall
    timer stay as they were. *)
Theorem LoopUser_run_invariants
    (ops : list LoopOp) (u u' : LoopUser) (g g' : Global) :
  QMultiMap_ordered (qmPackets u) ->
  LoopUser_run u g ops = Some (u', g') ->
  qsName u' = qsName u /\ qetTicker u' = qetTicker u
  /\ s g' = s g /\ ai g' = ai g
  /\ QMultiMap_ordered (qmPackets u')
  /\ match ao g with
     | None => g' = g /\ qetLastFetch u' = qetLastFetch u
     | Some out =>
         exists extra,
           ao g' = Some (sink_after out extra)
           /\ Forall (frame_from (qsName u)) extra
     end.
Proof.
  revert u g. induction ops as [|op rest IH]; intros u g Hs.
  - intros [= <- <-]. repeat split; auto.
    destruct (ao g) as [out|]; [|auto].
    exists []. rewrite sink_after_nil. auto.
  - cbn [LoopUser_run].
    destruct (LoopUser_step u g op) as [[u1 g1]|] eqn:Hstep; [|discriminate].
    intros Hrun.
    destruct (LoopUser_step_invariants _ _ _ _ _ Hs Hstep)
      as [Hn1 [Ht1 [Hs1 [Hai1 [Ho1 Hsink1]]]]].
    destruct (IH u1 g1 Ho1 Hrun) as [Hn [Ht [Hst [Hai [Ho Hsink]]]]].
    repeat split; try congruence; try assumption.
    destruct (ao g) as [out|] eqn:Hao.
    + destruct Hsink1 as [extra1 [Hout1 Hall1]]. rewrite Hout1 in Hsink.
      destruct Hsink as [extra2 [Hout2 Hall2]].
      exists (extra1 ++ extra2). rewrite Hout2, sink_after_app.
      split; [reflexivity|]. apply Forall_app. split; [exact Hall1|].
      rewrite <- Hn1. exact Hall2.
    + destruct Hsink1 as [Hg1 Hf1]. subst g1. rewrite Hao in Hsink.
      destruct Hsink as [Hg Hf]. split; [exact Hg|congruence].
Qed.

Lemma LoopUser_fetchFrames_ordered_spec (u : LoopUser) (g : Global) (out : AudioOutput)
    (clock_cmp clock_restart : Z) :
  ao g = Some out ->
  QMultiMap_ordered (qmPackets u) ->
  let now := double_of_int (elapsed (qetTicker u) clock_cmp) in
  qmPackets (fst (LoopUser_fetchFrames u g clock_cmp clock_restart))
  = filter (fun e => negb (due_at now e)) (qmPackets u)
  /\ snd (LoopUser_fetchFrames u g clock_cmp clock_restart)
     = set_ao g (Some (sink_after out
                         (map (fun e => decode_frame (qsName u) (snd e))
                              (filter (due_at now) (qmPackets u))))).
Proof.
  intros Hao Hs now. unfold LoopUser_fetchFrames. rewrite Hao.
  destruct (qmPackets u) as [|e rest] eqn:Em.
  - cbn. rewrite sink_after_nil. split; [exact Em|].
    destruct g; cbn in *; subst; reflexivity.
  - cbn [QMultiMap_isEmpty]. fold now.
    rewrite (fetch_loop_spec _ now _ out Hs). cbn. auto.
Qed.

Lemma filter_late_late (now1 now2 : Q) (m : QMultiMap) :
  (now1 <= now2)%Q ->
  filter (fun e => negb (due_at now2 e)) (filter (fun e => negb (due_at now1 e)) m)
  = filter (fun e => negb (due_at now2 e)) m.
Proof.
  intros Hle. induction m as [|e rest IH]; [reflexivity|]. cbn [filter].
  destruct (due_at now1 e) eqn:E1; cbn [negb].
  - assert (E2 : due_at now2 e = true).
    { apply Qle_bool_iff. apply Qle_bool_iff in E1. eapply Qle_trans; eassumption. }
    rewrite E2. cbn [negb]. exact IH.
  - cbn [filter]. rewrite IH. reflexivity.
Qed.

Lemma filter_due_then_due (now1 now2 : Q) (m : QMultiMap) :
  (now1 <= now2)%Q -> QMultiMap_ordered m ->
  filter (due_at now1) m
  ++ filter (due_at now2) (filter (fun e => negb (due_at now1 e)) m)
  = filter (due_at now2) m.
Proof.
  intros Hle. induction m as [|[k v] rest IH]; intros Hs; [reflexivity|].
  destruct (due_at now1 (k, v)) eqn:E1.
  - assert (E2 : due_at now2 (k, v) = true).
    { apply Qle_bool_iff. apply Qle_bool_iff in E1. eapply Qle_trans; eassumption. }
    cbn [filter]. rewrite E1, E2. cbn [negb app]. f_equal.
    apply IH. eapply QMultiMap_ordered_tail; eassumption.
  - apply Qle_bool_false_iff in E1. cbn [fst] in E1.
    destruct (ordered_all_late now1 rest k v Hs E1) as [H1 H2].
    rewrite H1, H2. reflexivity.
Qed.

(** X5.  Draining in two steps is draining once: with a render device
    active and the pending collection in key order, [fetchFrames] at one
    reading of the ticker followed by [fetchFrames] at a reading that is
    not earlier leaves the same pending entries, and the device with the
    same frames in the same order, as a single [fetchFrames] at the later
    reading.  At an equal reading the second call finds nothing due. *)
Theorem LoopUser_fetchFrames_twice
    (u : LoopUser) (g : Global) (out : AudioOutput) (c1 r1 c2 r2 : Z) :
  ao g = Some out ->
  QMultiMap_ordered (qmPackets u) ->
  (double_of_int (elapsed (qetTicker u) c1)
   <= double_of_int (elapsed (qetTicker u) c2))%Q ->
  let first := LoopUser_fetchFrames u g c1 r1 in
  let second := LoopUser_fetchFrames (fst first) (snd first) c2 r2 in
  let once := LoopUser_fetchFrames u g c2 r2 in
  qmPackets (fst second) = qmPackets (fst once)
  /\ snd second = snd once
  /\ (c2 = c1 ->
      qmPackets (fst second) = qmPackets (fst first) /\ snd second = snd first).
Proof.
  intros Hao Hs Hle first second once.
  destruct (LoopUser_fetchFrames_ordered_spec u g out c1 r1 Hao Hs) as [Hp1 Hg1].
  destruct (LoopUser_fetchFrames_ordered_spec u g out c2 r2 Hao Hs) as [Hp Hg].
  destruct (LoopUser_fetchFrames_effect u g c1 r1) as [_ [_ [_ [_ [Hn [Ht _]]]]]].
  fold first in Hp1, Hg1, Hn, Ht. fold once in Hp, Hg.
  assert (Hs1 : QMultiMap_ordered (qmPackets (fst first))).
  { rewrite Hp1. apply QMultiMap_ordered_filter. exact Hs. }
  assert (Hao1 : ao (snd first) = Some (sink_after out
                   (map (fun e => decode_frame (qsName u) (snd e))
                      (filter (due_at (double_of_int (elapsed (qetTicker u) c1)))
                              (qmPackets u)))))
    by (rewrite Hg1; reflexivity).
  destruct (LoopUser_fetchFrames_ordered_spec (fst first) (snd first) _ c2 r2 Hao1 Hs1)
    as [Hp2 Hg2].
  fold second in Hp2, Hg2. rewrite Ht, Hp1 in Hp2. rewrite Ht, Hn, Hp1 in Hg2.
  assert (Hboth : qmPackets (fst second) = qmPackets (fst once)
                  /\ snd second = snd once).
  { split.
    - rewrite Hp2, Hp. apply filter_late_late. exact Hle.
    - rewrite Hg2, Hg, Hg1, sink_after_app, <- map_app.
      rewrite (filter_due_then_due _ _ _ Hle Hs). reflexivity. }
  destruct Hboth as [Hb1 Hb2]. split; [exact Hb1|]. split; [exact Hb2|].
  intros ->. rewrite Hb1, Hb2, Hp, Hp1, Hg, Hg1. auto.
Qed.




(** X7.  The loss draw lies in the closed interval [0, 1].  A loss
    probability of 0 or less never discards a frame, one above 1 discards
    every frame, and the draw [rand() = 0] discards the frame as soon as
    the loss probability is positive. *)
Theorem loss_draw_decides
    (g : Global) (env : AddFrameEnv) :
  double_rounding_laws P ->
  0 < RAND_MAX ->
  0 <= rand1 env <= RAND_MAX ->
  (0 <= DOUBLE_RAND (rand1 env) <= 1)%Q
  /\ ((dPacketLoss (s g) <= 0)%Q -> dropped g env = false)
  /\ ((1 < dPacketLoss (s g))%Q -> dropped g env = true)
  /\ (rand1 env = 0 -> (0 < dPacketLoss (s g))%Q -> dropped g env = true).
Proof.
  intros laws HR Hr.
  destruct (DOUBLE_RAND_range laws (rand1 env) HR Hr) as [Hlo Hhi].
  split; [split; assumption|]. unfold dropped. split; [|split].
  - intros Hloss. apply Qlt_bool_false_iff. eapply Qle_trans; eassumption.
  - intros Hloss. apply Qlt_bool_iff. eapply Qle_lt_trans; eassumption.
  - intros H0 Hloss. apply Qlt_bool_iff. eapply Qle_lt_trans; [|exact Hloss].
    rewrite H0. unfold DOUBLE_RAND, double_div.
    destruct laws as [Hmono [Hz _]].
    apply Qle_trans with (to_double 0); [|rewrite Hz; apply Qle_refl].
    apply Hmono.
    assert (E : (double_of_int 0 == 0)%Q) by exact Hz.
    rewrite E. unfold Qdiv. rewrite Qmult_0_l. apply Qle_refl.
Qed.

(** ** More on stopping devices *)

Lemma stopOutput_run_app (a b : list StopOutputAction) (st : StopOutput) :
  stopOutput_run (a ++ b) st = stopOutput_run b (stopOutput_run a st).
Proof. unfold stopOutput_run. apply fold_left_app. Qed.

Lemma stopOutput_idle_step (k n : nat) (d : option Thread) (a : StopOutputAction) :
  d <> Some ControlThread ->
  exists n' d',
    stopOutput_step
      (mkStopOutput (stopOutput_pc_after k) (mkOwners false false n) d) a
    = mkStopOutput
        (stopOutput_pc_after (k + if is_SO_control a then 1 else 0))
        (mkOwners false false n') d'
    /\ d' <> Some ControlThread.
Proof.
  intros Hd.
  assert (Hsame : destroyed_after ControlThread (mkOwners false false n)
                    (mkOwners false false n) d = d).
  { unfold destroyed_after, use_count. cbn. destruct n; reflexivity. }
  assert (Hother : forall o', destroyed_after OtherThread (mkOwners false false n) o' d
                              <> Some ControlThread).
  { intros o'. unfold destroyed_after. destruct (_ && _); [discriminate|exact Hd]. }
  destruct a as [|b]; cbn [is_SO_control].
  - exists n.
    destruct k as [|[|[|[|k]]]];
      unfold stopOutput_step, stopOutput_control, copy_global, reset_global,
        reset_local, held_elsewhere;
      cbn [stopOutput_pc_after so_pc so_device so_destroyed
           in_global in_local elsewhere andb Nat.add];
      rewrite ?Hsame; eexists; (split; [reflexivity|exact Hd]).
  - rewrite Nat.add_0_r.
    cbn [stopOutput_step so_pc so_device so_destroyed].
    destruct b; cbn [other_step in_global in_local elsewhere].
    + eexists; eexists; split; [reflexivity|apply Hother].
    + destruct n; eexists; eexists; (split; [reflexivity|apply Hother]).
    + eexists; eexists; split; [reflexivity|apply Hother].
Qed.

Lemma stopOutput_idle_run (schedule : list StopOutputAction) :
  forall (k n : nat) (d : option Thread),
    d <> Some ControlThread ->
    let st := stopOutput_run schedule
                (mkStopOutput (stopOutput_pc_after k) (mkOwners false false n) d) in
    so_pc st = stopOutput_pc_after (k + stopOutput_control_steps schedule)
    /\ in_global (so_device st) = false
    /\ in_local (so_device st) = false
    /\ so_destroyed st <> Some ControlThread.
Proof.
  induction schedule as [|a rest IH]; intros k n d Hd.
  - cbn. rewrite Nat.add_0_r. auto.
  - cbn [stopOutput_run fold_left].
    destruct (stopOutput_idle_step k n d a Hd) as [n' [d' [Hstep Hd']]].
    rewrite Hstep.
    replace (k + stopOutput_control_steps (a :: rest))%nat
      with ((k + if is_SO_control a then 1 else 0)
            + stopOutput_control_steps rest)%nat.
    + apply (IH _ n' d' Hd').
    + unfold stopOutput_control_steps. cbn [filter].
      destruct (is_SO_control a); cbn; lia.
Qed.

(** X8.  [stopOutput] (and [stopInput]) with no device active is a no-op
    that never waits: whatever the other threads do, each statement of the
    stopping thread moves on to the next, the call has returned after its
    fourth statement, the handle stays null and the stopping thread
    destroys nothing. *)
Theorem stopOutput_idle_returns_without_waiting
    (n : nat) (schedule : list StopOutputAction) :
  let st := stopOutput_run schedule (stopOutput_idle_call n) in
  so_pc st = stopOutput_pc_after (stopOutput_control_steps schedule)
  /\ ((4 <= stopOutput_control_steps schedule)%nat -> so_pc st = SO_returned)
  /\ in_global (so_device st) = false
  /\ in_local (so_device st) = false
  /\ so_destroyed st <> Some ControlThread.
Proof.
  intros st.
  destruct (stopOutput_idle_run schedule 0 n None ltac:(discriminate))
    as [Hpc [Hg [Hl Hd]]].
  change (mkStopOutput (stopOutput_pc_after 0) (mkOwners false false n) None)
    with (stopOutput_idle_call n) in *.
  fold st in Hpc, Hg, Hl, Hd. cbn [Nat.add] in Hpc.
  repeat split; try assumption.
  intros H4. rewrite Hpc.
  destruct (stopOutput_control_steps schedule) as [|[|[|[|k]]]]; try lia. reflexivity.
Qed.

Lemma stopOutput_elsewhere_kept (schedule : list StopOutputAction) :
  Forall (fun a => a <> SO_other Release) schedule ->
  forall st,
    (elsewhere (so_device st)
     <= elsewhere (so_device (stopOutput_run schedule st)))%nat.
Proof.
  induction 1 as [|a rest Ha _ IH]; intros st; [cbn; lia|].
  cbn [stopOutput_run fold_left].
  eapply Nat.le_trans; [|apply IH].
  destruct st as [pc [gl lo m] d]. destruct a as [|[| |]]; cbn.
  - destruct pc; cbn; try lia. destruct (held_elsewhere _); cbn; lia.
  - destruct gl; cbn; lia.
  - destruct m; cbn; lia.
  - congruence.
Qed.

(** X9.  A reference that is never dropped keeps [stopOutput] from ever
    returning: if at least one reference to the active device is held by
    another thread at the call and no thread ever releases one, then in
    no interleaving does the stopping thread get past its wait loop, and
    the device is not destroyed. *)
Theorem stopOutput_never_returns_without_release
    (n : nat) (schedule : list StopOutputAction) :
  (1 <= n)%nat ->
  Forall (fun a => a <> SO_other Release) schedule ->
  let st := stopOutput_run schedule (stopOutput_call n) in
  so_pc st <> SO_reset_local
  /\ so_pc st <> SO_returned
  /\ so_destroyed st = None
  /\ (n <= elsewhere (so_device st))%nat.
Proof.
  intros Hn Hnr st.
  assert (Hinv := stopOutput_inv_run schedule _ (stopOutput_inv_call n)).
  assert (Hge := stopOutput_elsewhere_kept schedule Hnr (stopOutput_call n)).
  fold st in Hinv, Hge. cbn [stopOutput_call so_device elsewhere] in Hge.
  unfold stopOutput_inv in Hinv.
  destruct (so_pc st); repeat split; try discriminate; try tauto; try lia;
    destruct Hinv as [_ [_ [H0 _]]]; lia.
Qed.

Lemma stopOutput_sole_run (schedule : list StopOutputAction) :
  stopOutput_run schedule
    (mkStopOutput SO_returned (mkOwners false false 0) (Some ControlThread))
  = mkStopOutput SO_returned (mkOwners false false 0) (Some ControlThread)
  /\ stopOutput_run schedule (mkStopOutput SO_reset_local (mkOwners false true 0) None)
     = match stopOutput_control_steps schedule with
       | O => mkStopOutput SO_reset_local (mkOwners false true 0) None
       | S _ => mkStopOutput SO_returned (mkOwners false false 0) (Some ControlThread)
       end
  /\ stopOutput_run schedule (mkStopOutput SO_wait (mkOwners false true 0) None)
     = match stopOutput_control_steps schedule with
       | O => mkStopOutput SO_wait (mkOwners false true 0) None
       | S O => mkStopOutput SO_reset_local (mkOwners false true 0) None
       | S (S _) =>
           mkStopOutput SO_returned (mkOwners false false 0) (Some ControlThread)
       end.
Proof.
  unfold stopOutput_run, stopOutput_control_steps.
  induction schedule as [|a rest [IH1 [IH2 IH3]]]; [auto|].
  cbn [fold_left]. destruct a as [|[| |]]; cbn [filter is_SO_control List.length].
  - change (stopOutput_step (mkStopOutput SO_returned (mkOwners false false 0)
                               (Some ControlThread)) SO_control)
      with (mkStopOutput SO_returned (mkOwners false false 0) (Some ControlThread)).
    change (stopOutput_step (mkStopOutput SO_reset_local (mkOwners false true 0) None)
              SO_control)
      with (mkStopOutput SO_returned (mkOwners false false 0) (Some ControlThread)).
    change (stopOutput_step (mkStopOutput SO_wait (mkOwners false true 0) None)
              SO_control)
      with (mkStopOutput SO_reset_local (mkOwners false true 0) None).
    rewrite IH1, IH2. auto.
  - change (stopOutput_step (mkStopOutput SO_returned (mkOwners false false 0)
                               (Some ControlThread)) (SO_other Acquire))
      with (mkStopOutput SO_returned (mkOwners false false 0) (Some ControlThread)).
    change (stopOutput_step (mkStopOutput SO_reset_local (mkOwners false true 0) None)
              (SO_other Acquire))
      with (mkStopOutput SO_reset_local (mkOwners false true 0) None).
    change (stopOutput_step (mkStopOutput SO_wait (mkOwners false true 0) None)
              (SO_other Acquire))
      with (mkStopOutput SO_wait (mkOwners false true 0) None).
    auto.
  - change (stopOutput_step (mkStopOutput SO_returned (mkOwners false false 0)
                               (Some ControlThread)) (SO_other Duplicate))
      with (mkStopOutput SO_returned (mkOwners false false 0) (Some ControlThread)).
    change (stopOutput_step (mkStopOutput SO_reset_local (mkOwners false true 0) None)
              (SO_other Duplicate))
      with (mkStopOutput SO_reset_local (mkOwners false true 0) None).
    change (stopOutput_step (mkStopOutput SO_wait (mkOwners false true 0) None)
              (SO_other Duplicate))
      with (mkStopOutput SO_wait (mkOwners false true 0) None).
    auto.
  - change (stopOutput_step (mkStopOutput SO_returned (mkOwners false false 0)
                               (Some ControlThread)) (SO_other Release))
      with (mkStopOutput SO_returned (mkOwners false false 0) (Some ControlThread)).
    change (stopOutput_step (mkStopOutput SO_reset_local (mkOwners false true 0) None)
              (SO_other Release))
      with (mkStopOutput SO_reset_local (mkOwners false true 0) None).
    change (stopOutput_step (mkStopOutput SO_wait (mkOwners false true 0) None)
              (SO_other Release))
      with (mkStopOutput SO_wait (mkOwners false true 0) None).
    auto.
Qed.

(** X10.  Once the stopping thread sits in its wait loop and no other
    thread holds a reference, nothing the other threads do can delay it
    any more: in every continuation in which it runs two statements, the
    call has returned and the device has been destroyed on the calling
    thread. *)
Theorem stopOutput_returns_two_statements_after_sole
    (n : nat) (before after : list StopOutputAction) :
  let st := stopOutput_run before (stopOutput_call n) in
  so_pc st = SO_wait ->
  elsewhere (so_device st) = O ->
  (2 <= stopOutput_control_steps after)%nat ->
  so_pc (stopOutput_run after st) = SO_returned
  /\ so_destroyed (stopOutput_run after st) = Some ControlThread
  /\ use_count (so_device (stopOutput_run after st)) = O.
Proof.
  intros st Hpc He Hk.
  assert (Hinv := stopOutput_inv_run before _ (stopOutput_inv_call n)).
  fold st in Hinv. unfold stopOutput_inv in Hinv. rewrite Hpc in Hinv.
  assert (Hst : st = mkStopOutput SO_wait (mkOwners false true 0) None).
  { destruct st as [pc [gl lo m] d]. cbn in *.
    destruct Hinv as [-> [-> ->]]. subst. reflexivity. }
  rewrite Hst.
  destruct (stopOutput_sole_run after) as [_ [_ H]]. rewrite H.
  destruct (stopOutput_control_steps after) as [|[|k]]; try lia.
  cbn. auto.
Qed.

Lemma stop_elsewhere_kept (d : Direction) (schedule : list StopAction) :
  Forall (fun a => a <> ST_other d Release) schedule ->
  forall st,
    (elsewhere (stop_device d st)
     <= elsewhere (stop_device d (stop_run schedule st)))%nat.
Proof.
  induction 1 as [|a rest Ha _ IH]; intros st; [cbn; lia|].
  cbn [stop_run fold_left].
  eapply Nat.le_trans; [|apply IH].
  destruct st as [pc [gi li mi] [go lo mo] di dO].
  destruct a as [|[|] [| |]]; destruct d; cbn; try congruence; try lia;
    try (destruct pc; cbn; try lia;
         match goal with |- context [held_elsewhere ?o] =>
           destruct (held_elsewhere o); cbn; lia end);
    try (destruct gi; cbn; lia); try (destruct go; cbn; lia);
    try (destruct mi; cbn; lia); try (destruct mo; cbn; lia).
Qed.

(** X11.  The two directions are torn down together: if a reference to
    either device is held by another thread at the call and that
    direction's references are never released, then in no interleaving
    does [stop] get past its wait loop, and neither device - not even the
    one that nobody else holds - is destroyed. *)
Theorem stop_never_passes_wait_without_release
    (d : Direction) (ni no : nat) (schedule : list StopAction) :
  (1 <= elsewhere (stop_device d (stop_call ni no)))%nat ->
  Forall (fun a => a <> ST_other d Release) schedule ->
  let st := stop_run schedule (stop_call ni no) in
  stop_past_wait (st_pc st) = false
  /\ st_ai_destroyed st = None
  /\ st_ao_destroyed st = None.
Proof.
  intros Hn Hnr st.
  assert (Hinv := stop_inv_run schedule _ (stop_inv_call ni no)).
  assert (Hge := stop_elsewhere_kept d schedule Hnr (stop_call ni no)).
  fold st in Hinv, Hge.
  assert (Hpos : (1 <= elsewhere (stop_device d st))%nat) by lia.
  clear Hge Hn Hnr. unfold stop_inv, owned in Hinv.
  destruct st as [pc i o di dO]. cbn [st_pc st_ai st_ao st_ai_destroyed
    st_ao_destroyed stop_device] in *.
  destruct pc; cbn [stop_past_wait];
    destruct Hinv as [[Hgi [Hli Hsi]] [[Hgo [Hlo Hso]] [Hdi Hdo]]];
    try (repeat split; try assumption; try congruence; fail);
    exfalso; destruct d; cbn in Hpos;
    try (specialize (Hsi eq_refl)); try (specialize (Hso eq_refl)); lia.
Qed.

Lemma stop_sole_step (k : nat) (a : StopAction) :
  stop_step (stop_sole_state k) a
  = stop_sole_state (k + if is_ST_control a then 1 else 0).
Proof.
  destruct a as [|[|] [| |]]; destruct k as [|[|[|[|k]]]]; reflexivity.
Qed.

Lemma stop_sole_run (schedule : list StopAction) (k : nat) :
  stop_run schedule (stop_sole_state k)
  = stop_sole_state (k + stop_control_steps schedule).
Proof.
  unfold stop_run, stop_control_steps. revert k.
  induction schedule as [|a rest IH]; intros k.
  - cbn. rewrite Nat.add_0_r. reflexivity.
  - cbn [fold_left filter]. rewrite stop_sole_step, IH. f_equal.
    destruct (is_ST_control a); cbn; lia.
Qed.

(** X12.  Once [stop] evaluates its loop condition while neither device
    is referenced by another thread, nothing the other threads do can
    delay it any more: in every continuation in which the stopping thread
    runs four statements, the call has returned and both devices have been
    destroyed on the calling thread, the capture device first. *)
Theorem stop_returns_four_statements_after_sole
    (ni no : nat) (before after : list StopAction) :
  let st := stop_run before (stop_call ni no) in
  st_pc st = ST_test_ai ->
  elsewhere (st_ai st) = O ->
  elsewhere (st_ao st) = O ->
  (4 <= stop_control_steps after)%nat ->
  st_pc (stop_run after st) = ST_returned
  /\ st_ai_destroyed (stop_run after st) = Some ControlThread
  /\ st_ao_destroyed (stop_run after st) = Some ControlThread
  /\ forall prefix rest,
       after = prefix ++ rest ->
       st_ao_destroyed (stop_run prefix st) = Some ControlThread ->
       st_ai_destroyed (stop_run prefix st) = Some ControlThread.
Proof.
  intros st Hpc Hi Ho Hk.
  assert (Hinv := stop_inv_run before _ (stop_inv_call ni no)).
  fold st in Hinv. unfold stop_inv, owned in Hinv. rewrite Hpc in Hinv.
  assert (Hst : st = stop_sole_state 0).
  { destruct st as [pc [gi li mi] [go lo mo] di dO]. cbn in *.
    destruct Hinv as [[-> [-> _]] [[-> [-> _]] [-> ->]]]. subst. reflexivity. }
  rewrite Hst. rewrite stop_sole_run. cbn [Nat.add].
  split; [|split; [|split]].
  - destruct (stop_control_steps after) as [|[|[|[|k]]]]; try lia; reflexivity.
  - destruct (stop_control_steps after) as [|[|[|[|k]]]]; try lia; reflexivity.
  - destruct (stop_control_steps after) as [|[|[|[|k]]]]; try lia; reflexivity.
  - intros prefix rest _. rewrite stop_sole_run. cbn [Nat.add].
    destruct (stop_control_steps prefix) as [|[|[|[|k]]]]; cbn; congruence.
Qed.

Ltac close_side_inv :=
  cbn; unfold destroyed_after; repeat split; intros; try discriminate; try assumption; try reflexivity;
  repeat match goal with
  | |- (if ?c then _ else _) <> _ => destruct c
  | H : (if ?c then _ else _) = _ |- _ => destruct c
  end; try discriminate; try assumption; try contradiction; try congruence.

Lemma stop_inv_from_step (ia oa : bool) (st : Stop) (a : StopAction) :
  stop_inv_from ia oa st -> stop_inv_from ia oa (stop_step st a).
Proof.
  destruct st as [pc i o di dO]. unfold stop_inv_from, side_inv, owned.
  cbn [st_pc st_ai st_ao st_ai_destroyed st_ao_destroyed].
  intros H.
  destruct ia, oa, a as [|[|] [| |]], pc; owners_cases;
    repeat match goal with
    | H : true = true -> _ |- _ => specialize (H eq_refl); subst
    | H : false = true -> _ |- _ => clear H
    end;
    unfold destroyed_after;
    first [ solve [close_side_inv]
          | match goal with n : nat |- _ => destruct n end; solve [close_side_inv]
          | match goal with n : nat, m : nat |- _ => destruct n; destruct m end;
            solve [close_side_inv]
          | match goal with n : nat, m : nat |- _ =>
              destruct n as [|[|?]]; destruct m as [|[|?]] end;
            solve [close_side_inv] ].
Qed.

Lemma stop_inv_from_run (ia oa : bool) (schedule : list StopAction) (st : Stop) :
  stop_inv_from ia oa st -> stop_inv_from ia oa (stop_run schedule st).
Proof.
  unfold stop_run. revert st.
  induction schedule as [|a rest IH]; intros st H; [exact H|].
  simpl. apply IH. apply stop_inv_from_step. exact H.
Qed.

Lemma stop_inv_from_call (ia oa : bool) (ni no : nat) :
  stop_inv_from ia oa (stop_call_from ia oa ni no).
Proof.
  destruct ia, oa; cbn; unfold owned; cbn; repeat split; intros; discriminate.
Qed.

(** X13.  [stop] with either device active or not, in every interleaving:
    a direction that has no device is skipped - its handle stays null, the
    stopping thread never holds a reference for it and destroys nothing
    there, whatever references other threads still hold - while for each
    device that was active the stopping thread gets past the wait loop
    only when no other thread holds a reference, and that device is
    destroyed past the wait loop, by the calling thread, and not
    otherwise. *)
Theorem stop_skips_absent_devices
    (ia oa : bool) (ni no : nat) (schedule : list StopAction) :
  let st := stop_run schedule (stop_call_from ia oa ni no) in
  (ia = false ->
     in_global (st_ai st) = false /\ in_local (st_ai st) = false
     /\ st_ai_destroyed st <> Some ControlThread)
  /\ (oa = false ->
     in_global (st_ao st) = false /\ in_local (st_ao st) = false
     /\ st_ao_destroyed st <> Some ControlThread)
  /\ (ia = true ->
     (stop_past_wait (st_pc st) = true -> elsewhere (st_ai st) = O)
     /\ (stop_past_wait (st_pc st) = false -> st_ai_destroyed st = None)
     /\ st_ai_destroyed st <> Some OtherThread
     /\ (st_pc st = ST_returned -> st_ai_destroyed st = Some ControlThread))
  /\ (oa = true ->
     (stop_past_wait (st_pc st) = true -> elsewhere (st_ao st) = O)
     /\ (stop_past_wait (st_pc st) = false -> st_ao_destroyed st = None)
     /\ st_ao_destroyed st <> Some OtherThread
     /\ (st_pc st = ST_returned -> st_ao_destroyed st = Some ControlThread)).
Proof.
  intros st.
  assert (H := stop_inv_from_run ia oa schedule _ (stop_inv_from_call ia oa ni no)).
  fold st in H. destruct st as [pc i o di dO].
  unfold stop_inv_from, side_inv, owned in H.
  cbn [st_pc st_ai st_ao st_ai_destroyed st_ao_destroyed] in *.
  destruct ia, oa, pc; owners_cases;
    repeat match goal with
    | H : true = true -> _ |- _ => specialize (H eq_refl); subst
    | H : false = true -> _ |- _ => clear H
    end;
    cbn; repeat split; intros; try discriminate; try assumption; try reflexivity.
Qed.

(** ** CodecInit *)

Lemma eqb_S_l (a : nat) : (S a =? a)%nat = false.
Proof. apply Nat.eqb_neq. lia. Qed.

Lemma eqb_S_r (a : nat) : (a =? S a)%nat = false.
Proof. apply Nat.eqb_neq. lia. Qed.

Lemma eqb_SS_l (a : nat) : (S (S a) =? a)%nat = false.
Proof. apply Nat.eqb_neq. lia. Qed.

Lemma eqb_SS_r (a : nat) : (a =? S (S a))%nat = false.
Proof. apply Nat.eqb_neq. lia. Qed.

Ltac codec_eval :=
  repeat (cbv - [Nat.eqb bitstreamVersion In];
          progress rewrite ?Nat.eqb_refl, ?eqb_S_l, ?eqb_S_r, ?eqb_SS_l, ?eqb_SS_r);
  cbv - [Nat.eqb bitstreamVersion In].

Ltac codec_eval_in H :=
  repeat (cbv - [Nat.eqb bitstreamVersion In] in H;
          progress rewrite ?Nat.eqb_refl, ?eqb_S_l, ?eqb_S_r, ?eqb_SS_l, ?eqb_SS_r in H);
  cbv - [Nat.eqb bitstreamVersion In] in H.

(** Evaluates [initialize] once in each case of the build flags, the kill
    switch and what loaded, before the rest of the goal is looked at. *)
Ltac codec_cases b lib disable :=
  match goal with
  | g := ?t |- _ =>
      assert (Hg : g = t) by reflexivity; clearbody g; revert Hg
  end;
  destruct b as [[|] [|]]; destruct disable; destruct lib as [valid version];
  unfold CodecInit_initialize, construct_celt;
  cbn [isValid USE_OPUS USE_SBCELT];
  destruct (valid OpusKind) eqn:Hopus;
  destruct (valid SBCELTKind) eqn:Hsb;
  destruct (valid (CELT070Kind "0.7.0")) eqn:H070;
  destruct (valid (CELT070Kind "0.0.0")) eqn:H000;
  intros Hg; codec_eval_in Hg; rewrite Hg; clear Hg; codec_eval.

Ltac codec_members :=
  repeat match goal with
  | H : In _ [] |- _ => contradiction H
  | H : In _ (_ :: _) |- _ => destruct H as [H|H]
  | H : mkCodec _ _ = _ |- _ => rewrite <- H in *; clear H
  | H : (_, _) = (_, _) |- _ => injection H as <- <-
  | H : Some _ = Some _ |- _ => injection H as <-
  | H : None = Some _ |- _ => discriminate H
  end.

(** X14.  After [CodecInit::initialize], run before any codec exists,
    nothing has leaked and nothing dangles: the objects still on the heap
    are exactly the ones reachable from [g.oCodec] and [g.qmCodecs], every
    codec constructed and found unusable has been deleted, and nothing was
    deleted twice.  At most one CELT codec is registered, under the
    bitstream version it reports, and every codec kept is a valid one. *)
Theorem CodecInit_initialize_keeps_exactly_the_valid
    (b : Build) (lib : CodecLibrary) (disable_celt : bool) (first_addr : nat) :
  let g := CodecInit_initialize b lib (CodecGlobal_start disable_celt first_addr) in
  map codec_addr (heap g) = registered g
  /\ bad_deletes g = []
  /\ (List.length (qmCodecs g) <= 1)%nat
  /\ (forall c, In c (heap g) -> isValid lib (codec_kind c) = true)
  /\ (forall k a, In (k, a) (qmCodecs g) ->
        exists kind, In (mkCodec a kind) (heap g)
                     /\ kind <> OpusKind
                     /\ k = bitstreamVersion lib kind)
  /\ (forall a, oCodec g = Some a -> In (mkCodec a OpusKind) (heap g)).
Proof.
  intros g.
  codec_cases b lib disable_celt;
    (split; [reflexivity|]); (split; [reflexivity|]); (split; [lia|]);
    (split; [intros c Hc; codec_members; cbn; assumption|]);
    (split; [intros k a Hin; codec_members;
             eexists; (split; [cbn; eauto|]);
             (split; [discriminate|reflexivity])|]);
    intros a Ha; codec_members; cbn; auto.
Qed.

(** X15.  Which codecs [CodecInit::initialize] keeps: the Opus codec if
    the build has it and its library loaded (a critical error is logged
    once if it did not); no CELT codec when the kill switch
    [bDisableCELT] is set; otherwise the SBCELT codec in an SBCELT build,
    and else CELT 0.7.0 if it loaded, with "0.0.0" tried, and kept, only
    after "0.7.0" failed. *)
Theorem CodecInit_initialize_selection
    (b : Build) (lib : CodecLibrary) (disable_celt : bool) (first_addr : nat) :
  let g := CodecInit_initialize b lib (CodecGlobal_start disable_celt first_addr) in
  let kinds := map codec_kind (heap g) in
  (In OpusKind kinds <-> USE_OPUS b = true /\ isValid lib OpusKind = true)
  /\ (In SBCELTKind kinds
      <-> disable_celt = false /\ USE_SBCELT b = true
          /\ isValid lib SBCELTKind = true)
  /\ (In (CELT070Kind "0.7.0") kinds
      <-> disable_celt = false /\ USE_SBCELT b = false
          /\ isValid lib (CELT070Kind "0.7.0") = true)
  /\ (In (CELT070Kind "0.0.0") kinds
      <-> disable_celt = false /\ USE_SBCELT b = false
          /\ isValid lib (CELT070Kind "0.7.0") = false
          /\ isValid lib (CELT070Kind "0.0.0") = true)
  /\ (disable_celt = true -> qmCodecs g = [])
  /\ critical_errors g
     = (if USE_OPUS b && negb (isValid lib OpusKind) then 1 else 0)%nat.
Proof.
  intros g kinds. subst kinds.
  codec_cases b lib disable_celt;
    repeat match goal with
    | |- _ /\ _ => split
    | |- _ -> _ => intro
    end;
    codec_members;
    repeat match goal with
    | H : _ /\ _ |- _ => destruct H
    end;
    try discriminate; try reflexivity; cbn; auto.
Qed.

(** X16.  [CodecInit::destroy] after [initialize] deletes every codec
    that was kept, each once, and empties [g.qmCodecs]: the heap is empty
    and nothing was deleted twice.  [g.oCodec], however, is not reset: it
    still holds the address of the deleted Opus codec, so that a second
    [destroy] would delete that address again. *)
Theorem CodecInit_destroy_after_initialize
    (b : Build) (lib : CodecLibrary) (disable_celt : bool) (first_addr : nat) :
  let g := CodecInit_initialize b lib (CodecGlobal_start disable_celt first_addr) in
  let d := CodecInit_destroy b g in
  heap d = []
  /\ qmCodecs d = []
  /\ bad_deletes d = []
  /\ oCodec d = oCodec g
  /\ bad_deletes (CodecInit_destroy b d)
     = match oCodec g with Some a => [a] | None => [] end.
Proof.
  intros g d. subst d. unfold CodecInit_destroy.
  codec_cases b lib disable_celt; repeat split; reflexivity.
Qed.

(** ** More on starting devices *)

(** X17.  How the start operations compose.  [startInput] and
    [startOutput] act on different handles, so [start] gives the same
    state in either order.  A second [startOutput] (or [startInput])
    without a stop in between simply replaces the handle: the outcome is
    that of the last call alone.  And whatever the registrar returns, a
    handle found installed after a start call belongs to a device whose
    thread has been started, the render thread at [HighPriority] and the
    capture thread at [HighestPriority]. *)
Theorem Audio_start_composes (g : Global) (input output input' output' : string) :
  Audio_startOutput (Audio_startInput g input) output
  = Audio_startInput (Audio_startOutput g output) input
  /\ Audio_startOutput (Audio_startOutput g output) output'
     = Audio_startOutput g output'
  /\ Audio_startInput (Audio_startInput g input) input'
     = Audio_startInput g input'
  /\ (forall out, ao (Audio_start g input output) = Some out ->
        ao_priority out = Some HighPriority)
  /\ (forall inp, ai (Audio_start g input output) = Some inp ->
        ai_priority inp = Some HighestPriority)
  /\ s (Audio_start g input output) = s g.
Proof.
  unfold Audio_start, Audio_startOutput, Audio_startInput, set_ao, set_ai.
  cbn [ao ai s].
  destruct (AudioOutputRegistrar_newFromChoice output) as [o|];
    destruct (AudioOutputRegistrar_newFromChoice output') as [o'|];
    destruct (AudioInputRegistrar_newFromChoice input) as [i|];
    destruct (AudioInputRegistrar_newFromChoice input') as [i'|];
    cbn [ao ai s]; repeat split; intros ? [= <-]; reflexivity.
Qed.
(** ** [Audio::stopOutput] and [Audio::stop]: what the calls do *)

(** Each statement of the stopping thread moves at most one statement
    on, and exactly one before the wait loop, whatever the other threads
    do. *)
Lemma stopOutput_pc_step (st : StopOutput) (a : StopOutputAction) :
  let k := stopOutput_pc_index (so_pc st) in
  let k' := stopOutput_pc_index (so_pc (stopOutput_step st a)) in
  let c := if is_SO_control a then 1%nat else 0%nat in
  (k <= k' <= k + c)%nat /\ ((k < 2)%nat -> k' = (k + c)%nat).
Proof.
  destruct st as [pc o d]. destruct a as [|b]; destruct pc; cbn;
    try (destruct (held_elsewhere o); cbn); lia.
Qed.

Lemma stopOutput_pc_run (schedule : list StopOutputAction) :
  forall st : StopOutput,
    let k := stopOutput_pc_index (so_pc st) in
    let k' := stopOutput_pc_index (so_pc (stopOutput_run schedule st)) in
    (Nat.min 2 (k + stopOutput_control_steps schedule) <= k'
     <= k + stopOutput_control_steps schedule)%nat.
Proof.
  unfold stopOutput_run, stopOutput_control_steps.
  induction schedule as [|a rest IH]; intros st; cbn zeta.
  - cbn [fold_left filter List.length]. lia.
  - cbn [fold_left filter].
    pose proof (stopOutput_pc_step st a) as Hstep. cbn zeta in Hstep.
    specialize (IH (stopOutput_step st a)). cbn zeta in IH.
    destruct (is_SO_control a); cbn [List.length] in *; lia.
Qed.

(** With the handle cleared and no reference held by another thread, the
    other threads cannot change anything, and every statement of the
    stopping thread moves on. *)
Lemma stopOutput_released_step (st : StopOutput) (a : StopOutputAction) :
  released_elsewhere (so_device st) ->
  (2 <= stopOutput_pc_index (so_pc st))%nat ->
  released_elsewhere (so_device (stopOutput_step st a))
  /\ stopOutput_pc_index (so_pc (stopOutput_step st a))
     = Nat.min 4 (stopOutput_pc_index (so_pc st)
                  + if is_SO_control a then 1 else 0).
Proof.
  destruct st as [pc [gl lo m] d]. unfold released_elsewhere.
  cbn [so_pc so_device in_global in_local elsewhere].
  intros [-> Hm] Hk.
  destruct lo; [rewrite (Hm eq_refl)|];
    destruct a as [|[| |]]; destruct pc; cbn in Hk; try lia;
    cbn; repeat split; intros; try discriminate; try reflexivity;
    try (destruct m; reflexivity);
    try (destruct m; cbn in *; discriminate).
Qed.

Lemma stopOutput_released_run (schedule : list StopOutputAction) :
  forall st : StopOutput,
    released_elsewhere (so_device st) ->
    (2 <= stopOutput_pc_index (so_pc st))%nat ->
    stopOutput_pc_index (so_pc (stopOutput_run schedule st))
    = Nat.min 4 (stopOutput_pc_index (so_pc st) + stopOutput_control_steps schedule).
Proof.
  unfold stopOutput_run, stopOutput_control_steps.
  induction schedule as [|a rest IH]; intros st Hq Hk.
  - cbn [fold_left filter List.length]. destruct (so_pc st); cbn; lia.
  - cbn [fold_left filter].
    destruct (stopOutput_released_step st a Hq Hk) as [Hq' Hk'].
    rewrite IH; [|exact Hq'|rewrite Hk'; destruct (is_SO_control a); lia].
    rewrite Hk'. destruct (is_SO_control a); cbn [List.length]; lia.
Qed.

(** The other threads releasing all they hold leaves the stopping thread
    where it is, with no reference elsewhere. *)
Lemma stopOutput_release_all_run (st : StopOutput) :
  let st' := stopOutput_run (stopOutput_release_all st) st in
  so_pc st' = so_pc st
  /\ in_global (so_device st') = in_global (so_device st)
  /\ in_local (so_device st') = in_local (so_device st)
  /\ elsewhere (so_device st') = O.
Proof.
  unfold stopOutput_release_all, stopOutput_run.
  destruct st as [pc [gl lo m] d]. cbn [so_device elsewhere].
  revert d. induction m as [|m IH]; intros d; [cbn; auto|].
  cbn [repeat fold_left stopOutput_step so_pc so_device so_destroyed other_step
       in_global in_local elsewhere pred].
  apply IH.
Qed.

Lemma stopOutput_inv_cleared (st : StopOutput) :
  stopOutput_inv st -> (2 <= stopOutput_pc_index (so_pc st))%nat ->
  in_global (so_device st) = false.
Proof.
  destruct st as [pc o d]. unfold stopOutput_inv. cbn [so_pc so_device].
  destruct pc; cbn [stopOutput_pc_index]; intros H Hk; try lia; tauto.
Qed.

Lemma stopOutput_pc_index_inj (p q : StopOutputPc) :
  stopOutput_pc_index p = stopOutput_pc_index q -> p = q.
Proof. destruct p, q; cbn; intros H; try reflexivity; discriminate. Qed.

(** C1.  In every interleaving of a [stopOutput] call, made while a render
    device is active, with the threads that hold references to the device.
    What the call does: its first statement takes the local reference, its
    second clears the process-wide handle, whatever the other threads do;
    once it is in the wait loop and no reference is held elsewhere, its
    next two statements release the local reference and return, the
    device being destroyed by that release on the calling thread; and from
    wherever the call stands, it completes as soon as the other threads
    have released what they hold.  What it never does: the local reference
    is taken while the handle is still set; from the moment the handle is
    cleared no reference can be taken from it; the stopping thread spins
    for as long as a reference is held elsewhere, and reaches the release
    of its local reference only when that is the sole one left; the device
    is destroyed by nothing before that release. *)
Theorem stopOutput_destroys_on_calling_thread_when_sole
    (n : nat) (schedule : list StopOutputAction) :
  let st := stopOutput_run schedule (stopOutput_call n) in
  let o := so_device st in
  (stopOutput_control_steps schedule = 1%nat -> so_pc st = SO_reset_global)
  /\ ((2 <= stopOutput_control_steps schedule)%nat ->
      so_pc st = SO_wait \/ so_pc st = SO_reset_local \/ so_pc st = SO_returned)
  /\ (so_pc st = SO_reset_global -> in_local o = true /\ in_global o = true)
  /\ (so_pc st = SO_wait \/ so_pc st = SO_reset_local \/ so_pc st = SO_returned ->
      in_global o = false /\ other_step Acquire o = o)
  /\ (so_pc st = SO_wait -> elsewhere o <> O -> stopOutput_control st = st)
  /\ (so_pc st = SO_reset_local -> in_local o = true /\ use_count o = 1%nat)
  /\ (so_pc st <> SO_returned -> so_destroyed st = None /\ (0 < use_count o)%nat)
  /\ (so_pc st = SO_returned ->
      so_destroyed st = Some ControlThread /\ use_count o = O)
  /\ (elsewhere o <> O -> so_pc st <> SO_reset_local /\ so_pc st <> SO_returned)
  /\ (so_pc st = SO_wait -> elsewhere o = O ->
      forall more : list StopOutputAction,
        (2 <= stopOutput_control_steps more)%nat ->
        let st' := stopOutput_run more st in
        so_pc st' = SO_returned
        /\ so_destroyed st' = Some ControlThread
        /\ use_count (so_device st') = O)
  /\ (let st1 := stopOutput_run [SO_control; SO_control] st in
      let st2 := stopOutput_run (stopOutput_release_all st1) st1 in
      let st3 := stopOutput_run [SO_control; SO_control] st2 in
      so_pc st3 = SO_returned /\ so_destroyed st3 = Some ControlThread).
Proof.
  intros st o.
  assert (Hreach : forall more,
            stopOutput_inv (stopOutput_run more st)).
  { intros more. unfold st. rewrite <- stopOutput_run_app.
    apply stopOutput_inv_run, stopOutput_inv_call. }
  assert (H := Hreach []). change (stopOutput_run [] st) with st in H.
  assert (Hidx := stopOutput_pc_run schedule (stopOutput_call n)).
  cbn zeta in Hidx. fold st in Hidx.
  change (stopOutput_pc_index (so_pc (stopOutput_call n))) with 0%nat in Hidx.
  assert (Hreturned : forall s', stopOutput_inv s' ->
            stopOutput_pc_index (so_pc s') = 4%nat ->
            so_pc s' = SO_returned /\ so_destroyed s' = Some ControlThread
            /\ use_count (so_device s') = O).
  { intros [pc' [g' l' m'] d'] Hinv Hk. unfold stopOutput_inv in Hinv.
    destruct pc'; cbn in Hk; try discriminate.
    cbn in Hinv. destruct Hinv as [-> [-> [-> ->]]]. auto. }
  split; [|split].
  - intros H1. rewrite H1 in Hidx. apply stopOutput_pc_index_inj.
    change (stopOutput_pc_index SO_reset_global) with 1%nat. lia.
  - intros H2. destruct (so_pc st); cbn [stopOutput_pc_index] in Hidx; auto; lia.
  - assert (Hsafe :
      (so_pc st = SO_reset_global -> in_local o = true /\ in_global o = true)
      /\ (so_pc st = SO_wait \/ so_pc st = SO_reset_local \/ so_pc st = SO_returned ->
          in_global o = false /\ other_step Acquire o = o)
      /\ (so_pc st = SO_wait -> elsewhere o <> O -> stopOutput_control st = st)
      /\ (so_pc st = SO_reset_local -> in_local o = true /\ use_count o = 1%nat)
      /\ (so_pc st <> SO_returned -> so_destroyed st = None /\ (0 < use_count o)%nat)
      /\ (so_pc st = SO_returned ->
          so_destroyed st = Some ControlThread /\ use_count o = O)
      /\ (elsewhere o <> O -> so_pc st <> SO_reset_local /\ so_pc st <> SO_returned)).
    { clear Hreach Hidx Hreturned. subst o. destruct st as [pc o d].
      unfold stopOutput_inv in H. cbn [so_pc so_device so_destroyed] in *.
      destruct pc; owners_cases;
        repeat split; intros; try discriminate; try congruence;
        try (cbn; lia);
        try (match goal with H : _ \/ _ |- _ => destruct H as [H|[H|H]]; discriminate end).
      match goal with n : nat |- _ => destruct n; [congruence|reflexivity] end. }
    destruct Hsafe as [S1 [S2 [S3 [S4 [S5 [S6 S7]]]]]].
    repeat (split; [assumption|]).
    split.
    + intros Hpc He more Hk st'.
      apply Hreturned; [apply Hreach|].
      unfold st'. rewrite stopOutput_released_run.
      * rewrite Hpc. cbn [stopOutput_pc_index]. lia.
      * split; [apply S2; auto|intros _; exact He].
      * rewrite Hpc. cbn [stopOutput_pc_index]. lia.
    + intros st1 st2 st3.
      assert (Hinv1 : stopOutput_inv st1) by apply Hreach.
      assert (Hk1 := stopOutput_pc_run [SO_control; SO_control] st).
      cbn zeta in Hk1. fold st1 in Hk1.
      change (stopOutput_control_steps [SO_control; SO_control]) with 2%nat in Hk1.
      assert (Hk1' : (2 <= stopOutput_pc_index (so_pc st1))%nat) by lia.
      destruct (stopOutput_release_all_run st1) as [Hpc2 [Hg2 [Hl2 He2]]].
      fold st2 in Hpc2, Hg2, Hl2, He2.
      assert (Hg1 := stopOutput_inv_cleared st1 Hinv1 Hk1').
      assert (Hinv3 : stopOutput_inv st3).
      { unfold st3, st2, st1. rewrite <- !stopOutput_run_app. apply Hreach. }
      destruct (Hreturned st3 Hinv3) as [R1 [R2 _]]; [|auto].
      unfold st3. rewrite stopOutput_released_run.
      * rewrite Hpc2.
        change (stopOutput_control_steps [SO_control; SO_control]) with 2%nat. lia.
      * split; [congruence|intros _; exact He2].
      * rewrite Hpc2. exact Hk1'.
Qed.

Lemma stop_run_app (a b : list StopAction) (st : Stop) :
  stop_run (a ++ b) st = stop_run b (stop_run a st).
Proof. unfold stop_run. apply fold_left_app. Qed.

(** Each statement of [stop] moves at most one statement on, exactly one
    before the wait loop, and never back out of the loop. *)
Lemma stop_pc_step (st : Stop) (a : StopAction) :
  let k := stop_pc_index (st_pc st) in
  let k' := stop_pc_index (st_pc (stop_step st a)) in
  let c := if is_ST_control a then 1%nat else 0%nat in
  (k' <= k + c)%nat
  /\ ((k < 4)%nat -> k' = (k + c)%nat)
  /\ ((4 <= k)%nat -> (4 <= k')%nat).
Proof.
  destruct st as [pc i o di dO]. destruct a as [|[|] b]; destruct pc; cbn;
    try (destruct (held_elsewhere i); cbn);
    try (destruct (held_elsewhere o); cbn); lia.
Qed.

Lemma stop_pc_run (schedule : list StopAction) :
  forall st : Stop,
    let k := stop_pc_index (st_pc st) in
    let k' := stop_pc_index (st_pc (stop_run schedule st)) in
    (Nat.min 4 (k + stop_control_steps schedule) <= k'
     <= k + stop_control_steps schedule)%nat.
Proof.
  unfold stop_run, stop_control_steps.
  induction schedule as [|a rest IH]; intros st; cbn zeta.
  - cbn [fold_left filter List.length]. lia.
  - cbn [fold_left filter].
    pose proof (stop_pc_step st a) as Hstep. cbn zeta in Hstep.
    specialize (IH (stop_step st a)). cbn zeta in IH.
    destruct (is_ST_control a); cbn [List.length] in *; lia.
Qed.

Lemma released_elsewhere_not_held (o : Owners) :
  released_elsewhere o -> held_elsewhere o = false.
Proof.
  destruct o as [gl lo m]. unfold released_elsewhere, held_elsewhere.
  cbn [in_global in_local elsewhere]. intros [-> Hm].
  destruct lo; [rewrite (Hm eq_refl)|]; reflexivity.
Qed.

Lemma released_elsewhere_other (a : OtherAction) (o : Owners) :
  released_elsewhere o -> released_elsewhere (other_step a o).
Proof.
  destruct o as [gl lo m]. unfold released_elsewhere.
  cbn [in_global in_local elsewhere]. intros [-> Hm].
  destruct a; cbn; [auto| |].
  - destruct m; cbn; [auto|]. split; [reflexivity|].
    intros Hl. specialize (Hm Hl). discriminate.
  - split; [reflexivity|]. intros Hl. rewrite (Hm Hl). reflexivity.
Qed.

Lemma released_elsewhere_reset_local (o : Owners) :
  released_elsewhere o -> released_elsewhere (reset_local o).
Proof.
  destruct o as [gl lo m]. unfold released_elsewhere. cbn.
  intros [-> _]. split; [reflexivity|discriminate].
Qed.

(** With both handles cleared and no reference held by another thread,
    every statement of [stop] from the wait loop on moves to the next. *)
Lemma stop_released_step (st : Stop) (a : StopAction) :
  released_elsewhere (st_ai st) -> released_elsewhere (st_ao st) ->
  (4 <= stop_pc_index (st_pc st))%nat ->
  released_elsewhere (st_ai (stop_step st a))
  /\ released_elsewhere (st_ao (stop_step st a))
  /\ stop_pc_index (st_pc (stop_step st a))
     = Nat.min 8 (stop_pc_index (st_pc st) + if is_ST_control a then 1 else 0).
Proof.
  destruct st as [pc i o di dO].
  cbn [st_pc st_ai st_ao]. intros Hi Ho Hk.
  destruct a as [|[|] b].
  - cbn [stop_step is_ST_control]. unfold stop_control.
    cbn [st_pc st_ai st_ao st_ai_destroyed st_ao_destroyed].
    rewrite (released_elsewhere_not_held i Hi), (released_elsewhere_not_held o Ho).
    destruct pc; cbn [stop_pc_index] in Hk; try lia;
      cbn [st_pc st_ai st_ao stop_pc_index];
      (split; [|split; [|lia]]);
      auto using released_elsewhere_reset_local.
  - cbn [stop_step is_ST_control st_pc st_ai st_ao].
    split; [apply released_elsewhere_other; exact Hi|].
    split; [exact Ho|]. destruct pc; cbn [stop_pc_index]; lia.
  - cbn [stop_step is_ST_control st_pc st_ai st_ao].
    split; [exact Hi|].
    split; [apply released_elsewhere_other; exact Ho|].
    destruct pc; cbn [stop_pc_index]; lia.
Qed.

Lemma stop_released_run (schedule : list StopAction) :
  forall st : Stop,
    released_elsewhere (st_ai st) -> released_elsewhere (st_ao st) ->
    (4 <= stop_pc_index (st_pc st))%nat ->
    stop_pc_index (st_pc (stop_run schedule st))
    = Nat.min 8 (stop_pc_index (st_pc st) + stop_control_steps schedule).
Proof.
  unfold stop_run, stop_control_steps.
  induction schedule as [|a rest IH]; intros st Hi Ho Hk.
  - cbn [fold_left filter List.length]. destruct (st_pc st); cbn [stop_pc_index]; lia.
  - cbn [fold_left filter].
    destruct (stop_released_step st a Hi Ho Hk) as [Hi' [Ho' Hk']].
    rewrite IH; [|exact Hi'|exact Ho'|rewrite Hk'; destruct (is_ST_control a); lia].
    rewrite Hk'. destruct (is_ST_control a); cbn [List.length]; lia.
Qed.

Lemma stop_release_capture_run (st : Stop) :
  let st' := stop_run (repeat (ST_other Capture Release) (elsewhere (st_ai st))) st in
  st_pc st' = st_pc st
  /\ in_global (st_ai st') = in_global (st_ai st)
  /\ in_local (st_ai st') = in_local (st_ai st)
  /\ elsewhere (st_ai st') = O
  /\ st_ao st' = st_ao st.
Proof.
  unfold stop_run.
  destruct st as [pc [gl lo m] o di dO]. cbn [st_ai elsewhere].
  revert di. induction m as [|m IH]; intros di; [cbn; auto|].
  cbn [repeat fold_left stop_step st_pc st_ai st_ao st_ai_destroyed
       st_ao_destroyed other_step in_global in_local elsewhere pred].
  apply IH.
Qed.

Lemma stop_release_render_run (st : Stop) :
  let st' := stop_run (repeat (ST_other Render Release) (elsewhere (st_ao st))) st in
  st_pc st' = st_pc st
  /\ in_global (st_ao st') = in_global (st_ao st)
  /\ in_local (st_ao st') = in_local (st_ao st)
  /\ elsewhere (st_ao st') = O
  /\ st_ai st' = st_ai st.
Proof.
  unfold stop_run.
  destruct st as [pc i [gl lo m] di dO]. cbn [st_ao elsewhere].
  revert dO. induction m as [|m IH]; intros dO; [cbn; auto|].
  cbn [repeat fold_left stop_step st_pc st_ai st_ao st_ai_destroyed
       st_ao_destroyed other_step in_global in_local elsewhere pred].
  apply IH.
Qed.

(** The other threads releasing all they hold leaves [stop] where it is,
    with no reference elsewhere. *)
Lemma stop_release_all_run (st : Stop) :
  let st' := stop_run (stop_release_all st) st in
  st_pc st' = st_pc st
  /\ in_global (st_ai st') = in_global (st_ai st)
  /\ in_global (st_ao st') = in_global (st_ao st)
  /\ elsewhere (st_ai st') = O
  /\ elsewhere (st_ao st') = O.
Proof.
  unfold stop_release_all. cbn zeta. rewrite stop_run_app.
  destruct (stop_release_capture_run st) as [Hpc [Hg [_ [He Ho]]]].
  set (st1 := stop_run (repeat (ST_other Capture Release) (elsewhere (st_ai st))) st) in *.
  rewrite <- Ho.
  destruct (stop_release_render_run st1) as [Hpc' [Hg' [_ [He' Hi']]]].
  rewrite Hpc', Hg', Hi', He'. auto.
Qed.

Lemma stop_inv_from_cleared (ia oa : bool) (st : Stop) :
  stop_inv_from ia oa st -> (4 <= stop_pc_index (st_pc st))%nat ->
  in_global (st_ai st) = false /\ in_global (st_ao st) = false.
Proof.
  destruct st as [pc i o di dO]. unfold stop_inv_from, side_inv, owned.
  cbn [st_pc st_ai st_ao st_ai_destroyed st_ao_destroyed].
  destruct pc; cbn [stop_pc_index]; intros H Hk; try lia;
    destruct ia, oa; tauto.
Qed.

Lemma stop_inv_from_local (ia oa : bool) (st : Stop) :
  stop_inv_from ia oa st ->
  (in_local (st_ai st) = true -> ia = true)
  /\ (in_local (st_ao st) = true -> oa = true).
Proof.
  destruct st as [pc i o di dO]. unfold stop_inv_from, side_inv, owned.
  cbn [st_pc st_ai st_ao st_ai_destroyed st_ao_destroyed].
  destruct pc; intros H; destruct ia, oa; split; intros Hl; try reflexivity;
    exfalso; intuition congruence.
Qed.

Lemma stop_pc_index_inj (p q : StopPc) : stop_pc_index p = stop_pc_index q -> p = q.
Proof. destruct p, q; cbn; intros H; try reflexivity; discriminate. Qed.

(** C2.  In every interleaving of a [stop] call - either device active at
    the call or not - with the threads that hold references to the
    devices.  What the call does: its first two statements take the local
    copies of both handles, its next two clear both handles, whatever the
    other threads do; once it evaluates the loop condition with no
    reference to either device held elsewhere, its next four statements
    leave the loop, release both local references and return; and from
    wherever the call stands, it completes as soon as the other threads
    have released what they hold.  What it never does: both local copies
    are held, and both handles are as they were at the call, when the
    first handle is cleared; from then on no reference can be taken from
    a handle; the first local reference is released only when each local
    reference is the sole one to its device; no device is destroyed before
    that, nor by any thread but the calling one; and for a direction
    without a device the stopping thread holds and destroys nothing. *)
Theorem stop_releases_after_both_sole
    (ia oa : bool) (ni no : nat) (schedule : list StopAction) :
  let st := stop_run schedule (stop_call_from ia oa ni no) in
  let i := st_ai st in
  let o := st_ao st in
  ((stop_control_steps schedule <= 4)%nat ->
     stop_pc_index (st_pc st) = stop_control_steps schedule)
  /\ ((4 <= stop_control_steps schedule)%nat -> (4 <= stop_pc_index (st_pc st))%nat)
  /\ (st_pc st = ST_reset_ao ->
     in_local i = ia /\ in_local o = oa
     /\ in_global i = ia /\ in_global o = oa)
  /\ ((ia = true /\ in_global i = false) \/ (oa = true /\ in_global o = false) ->
     stop_past_wait (st_pc st) = false ->
     in_local i = ia /\ in_local o = oa)
  /\ (st_pc st = ST_test_ai \/ st_pc st = ST_test_ao \/ stop_past_wait (st_pc st) = true ->
     in_global i = false /\ in_global o = false
     /\ other_step Acquire i = i /\ other_step Acquire o = o)
  /\ (st_pc st = ST_release_ai ->
     in_local i = ia /\ in_local o = oa
     /\ (ia = true -> use_count i = 1%nat) /\ (oa = true -> use_count o = 1%nat))
  /\ (stop_past_wait (st_pc st) = true ->
     (ia = true -> elsewhere i = O) /\ (oa = true -> elsewhere o = O))
  /\ (stop_past_wait (st_pc st) = false ->
     (ia = true -> st_ai_destroyed st = None)
     /\ (oa = true -> st_ao_destroyed st = None))
  /\ ((ia = true -> st_ai_destroyed st <> Some OtherThread)
     /\ (oa = true -> st_ao_destroyed st <> Some OtherThread))
  /\ ((ia = false -> in_local i = false /\ st_ai_destroyed st <> Some ControlThread)
     /\ (oa = false -> in_local o = false /\ st_ao_destroyed st <> Some ControlThread))
  /\ (st_pc st = ST_returned ->
     (ia = true -> st_ai_destroyed st = Some ControlThread /\ use_count i = O)
     /\ (oa = true -> st_ao_destroyed st = Some ControlThread /\ use_count o = O))
  /\ (st_pc st = ST_test_ai \/ st_pc st = ST_test_ao ->
     (ia = true -> elsewhere i = O) -> (oa = true -> elsewhere o = O) ->
     forall more : list StopAction,
       (4 <= stop_control_steps more)%nat ->
       st_pc (stop_run more st) = ST_returned)
  /\ (let st1 := stop_run (repeat ST_control 4) st in
      let st2 := stop_run (stop_release_all st1) st1 in
      st_pc (stop_run (repeat ST_control 4) st2) = ST_returned).
Proof.
  intros st i o.
  assert (Hreach : forall more, stop_inv_from ia oa (stop_run more st)).
  { intros more. unfold st. rewrite <- stop_run_app.
    apply stop_inv_from_run, stop_inv_from_call. }
  assert (H := Hreach []). change (stop_run [] st) with st in H.
  assert (Hidx := stop_pc_run schedule (stop_call_from ia oa ni no)).
  cbn zeta in Hidx. fold st in Hidx.
  change (stop_pc_index (st_pc (stop_call_from ia oa ni no))) with 0%nat in Hidx.
  split; [intros Hk; lia|]. split; [intros Hk; lia|].
  assert (Hsafe :
    (st_pc st = ST_reset_ao ->
       in_local i = ia /\ in_local o = oa
       /\ in_global i = ia /\ in_global o = oa)
    /\ ((ia = true /\ in_global i = false) \/ (oa = true /\ in_global o = false) ->
       stop_past_wait (st_pc st) = false ->
       in_local i = ia /\ in_local o = oa)
    /\ (st_pc st = ST_test_ai \/ st_pc st = ST_test_ao \/ stop_past_wait (st_pc st) = true ->
       in_global i = false /\ in_global o = false
       /\ other_step Acquire i = i /\ other_step Acquire o = o)
    /\ (st_pc st = ST_release_ai ->
       in_local i = ia /\ in_local o = oa
       /\ (ia = true -> use_count i = 1%nat) /\ (oa = true -> use_count o = 1%nat))
    /\ (stop_past_wait (st_pc st) = true ->
       (ia = true -> elsewhere i = O) /\ (oa = true -> elsewhere o = O))
    /\ (stop_past_wait (st_pc st) = false ->
       (ia = true -> st_ai_destroyed st = None)
       /\ (oa = true -> st_ao_destroyed st = None))
    /\ ((ia = true -> st_ai_destroyed st <> Some OtherThread)
       /\ (oa = true -> st_ao_destroyed st <> Some OtherThread))
    /\ ((ia = false -> in_local i = false /\ st_ai_destroyed st <> Some ControlThread)
       /\ (oa = false -> in_local o = false /\ st_ao_destroyed st <> Some ControlThread))
    /\ (st_pc st = ST_returned ->
       (ia = true -> st_ai_destroyed st = Some ControlThread /\ use_count i = O)
       /\ (oa = true -> st_ao_destroyed st = Some ControlThread /\ use_count o = O))).
  { clear Hreach Hidx. subst i o. destruct st as [pc i o di dO].
    unfold stop_inv_from, side_inv, owned in H.
    cbn [st_pc st_ai st_ao st_ai_destroyed st_ao_destroyed] in *.
    destruct ia, oa, pc; owners_cases;
      repeat match goal with
      | H : true = true -> _ |- _ => specialize (H eq_refl); subst
      | H : false = true -> _ |- _ => clear H
      end;
      cbn; repeat split; intros; try discriminate; try assumption; try reflexivity;
      repeat match goal with
      | H : _ \/ _ |- _ => destruct H
      | H : _ /\ _ |- _ => destruct H
      end; try discriminate; try congruence. }
  destruct Hsafe as [S1 [S2 [S3 [S4 [S5 [S6 [S7 [S8 S9]]]]]]]].
  repeat (split; [assumption|]).
  split.
  - intros Hpc Hei Heo more Hk.
    assert (Hk4 : (4 <= stop_pc_index (st_pc st))%nat)
      by (destruct Hpc as [-> | ->]; cbn [stop_pc_index]; lia).
    destruct (stop_inv_from_cleared ia oa st H Hk4) as [Hgi Hgo].
    destruct (stop_inv_from_local ia oa st H) as [Hli Hlo].
    apply stop_pc_index_inj. rewrite stop_released_run.
    + change (stop_pc_index ST_returned) with 8%nat.
      destruct Hpc as [-> | ->]; cbn [stop_pc_index]; lia.
    + split; [exact Hgi|]. intros Hl. apply Hei, Hli, Hl.
    + split; [exact Hgo|]. intros Hl. apply Heo, Hlo, Hl.
    + exact Hk4.
  - intros st1 st2.
    assert (Hinv1 : stop_inv_from ia oa st1) by apply Hreach.
    assert (Hk1 := stop_pc_run (repeat ST_control 4) st).
    cbn zeta in Hk1. fold st1 in Hk1.
    change (stop_control_steps (repeat ST_control 4)) with 4%nat in Hk1.
    assert (Hk1' : (4 <= stop_pc_index (st_pc st1))%nat) by lia.
    destruct (stop_inv_from_cleared ia oa st1 Hinv1 Hk1') as [Hgi Hgo].
    destruct (stop_release_all_run st1) as [Hpc2 [Hgi2 [Hgo2 [Hei2 Heo2]]]].
    fold st2 in Hpc2, Hgi2, Hgo2, Hei2, Heo2.
    apply stop_pc_index_inj. rewrite stop_released_run.
    + rewrite Hpc2. change (stop_pc_index ST_returned) with 8%nat.
      change (stop_control_steps (repeat ST_control 4)) with 4%nat.
      assert (Hle : (stop_pc_index (st_pc st1) <= 8)%nat)
        by (destruct (st_pc st1); cbn [stop_pc_index]; lia).
      lia.
    + split; [congruence|intros _; exact Hei2].
    + split; [congruence|intros _; exact Heo2].
    + rewrite Hpc2. exact Hk1'.
Qed.
End Proofs.

(* ================================================================== *)
(** * The model at concrete inputs *)

Example fetch_5_1_3_at_5 :
  let u := mkLoopUser "Loopy" pending_5_1_3_9 0 0 in
  let g := mkGlobal silent_settings (Some running_output) None in
  let r := @LoopUser_fetchFrames ieee754 u g 5 5 in
  map fst (qmPackets (fst r)) = [9%Q]
  /\ option_map (fun o => map bf_seq (ao_frames o)) (ao (snd r)) = Some [10; 30; 50]
  /\ option_map (fun o => map bf_type (ao_frames o)) (ao (snd r)) = Some [4; 4; 4].
Proof. vm_compute. repeat split. Qed.

Lemma fetchFrames_drains_due_in_key_order_witness :
  let u := mkLoopUser "Loopy" pending_5_1_3_9 0 0 in
  let g := mkGlobal silent_settings (Some running_output) None in
  ao g = Some running_output
  /\ QMultiMap_ordered (qmPackets u)
  /\ qmPackets (fst (@LoopUser_fetchFrames ieee754 u g 5 5))
     = filter (fun e => negb (due_at (@double_of_int ieee754 5) e)) pending_5_1_3_9.
Proof.
  intros u g.
  assert (Hs : QMultiMap_ordered (qmPackets u)).
  { repeat apply QMultiMap_insert_ordered. constructor. }
  split; [reflexivity|]. split; [exact Hs|].
  exact (proj1 (@fetchFrames_drains_due_in_key_order ieee754 u g running_output 5 5
                  eq_refl Hs)).
Defined.

(** C5, as stated, fails when nothing is pending: the sink is present,
    the clock reads 500, and the stall timer keeps its old start 0. *)
Lemma fetchFrames_empty_keeps_stall_timer :
  let u := mkLoopUser "Loopy" [] 0 0 in
  let g := mkGlobal silent_settings (Some running_output) None in
  ao g = Some running_output
  /\ qetLastFetch (fst (@LoopUser_fetchFrames ieee754 u g 500 500)) = 0
  /\ qetLastFetch (fst (@LoopUser_fetchFrames ieee754 u g 500 500)) <> 500.
Proof. vm_compute. repeat split; discriminate. Qed.

(** Every pending entry is later than [now = 2]: nothing is removed, and
    the timer is restarted all the same. *)
Lemma fetchFrames_restarts_stall_timer_when_pending_witness :
  let u := mkLoopUser "Loopy" [(7%Q, [128; 1])] 0 0 in
  let g := mkGlobal silent_settings (Some running_output) None in
  ao g = Some running_output
  /\ qmPackets (fst (@LoopUser_fetchFrames ieee754 u g 2 2)) = qmPackets u
  /\ qetLastFetch (fst (@LoopUser_fetchFrames ieee754 u g 2 2)) = 2.
Proof.
  intros u g. split; [reflexivity|]. split; [vm_compute; reflexivity|].
  apply (@fetchFrames_restarts_stall_timer_when_pending ieee754 u g running_output 2 2
           eq_refl).
  discriminate.
Defined.

(** C6, as stated, fails: started through the "ALSA" backend, the render
    thread runs at priority 4 and the capture thread at priority 5. *)
Lemma render_priority_below_capture_priority :
  let g := @Audio_start ieee754 idle_global "ALSA" "ALSA" in
  render_priority g = Some 4
  /\ capture_priority g = Some 5
  /\ ~ (4 >= 5).
Proof. vm_compute. repeat split. intros H. apply H. reflexivity. Qed.

Lemma capture_priority_above_render_priority_witness :
  @AudioInputRegistrar_newFromChoice ieee754 "ALSA" = Some (mkAudioInput 1 None)
  /\ @AudioOutputRegistrar_newFromChoice ieee754 "ALSA" = Some (mkAudioOutput 1 None [])
  /\ exists r c,
       render_priority (@Audio_start ieee754 idle_global "ALSA" "ALSA") = Some r
       /\ capture_priority (@Audio_start ieee754 idle_global "ALSA" "ALSA") = Some c
       /\ r < c.
Proof.
  split; [reflexivity|]. split; [reflexivity|].
  exact (proj2 (proj2 (@capture_priority_above_render_priority ieee754 idle_global
                         "ALSA" "ALSA" (mkAudioInput 1 None) (mkAudioOutput 1 None [])
                         eq_refl eq_refl))).
Defined.

(** C7, as stated, fails when a device is active: the selector "OSS" does
    not resolve, and the render handle that was present is gone. *)
Lemma startOutput_unresolved_drops_active_handle :
  let g := mkGlobal silent_settings (Some running_output) None in
  @AudioOutputRegistrar_newFromChoice ieee754 "OSS" = None
  /\ ao g = Some running_output
  /\ ao (@Audio_startOutput ieee754 g "OSS") = None
  /\ ao (@Audio_startOutput ieee754 g "OSS") <> ao g.
Proof. vm_compute. repeat split. discriminate. Qed.

Lemma start_with_unresolved_selector_clears_handle_witness :
  let g := mkGlobal silent_settings (Some running_output) None in
  @AudioOutputRegistrar_newFromChoice ieee754 "OSS" = None
  /\ @AudioInputRegistrar_newFromChoice ieee754 "OSS" = None
  /\ @Audio_startOutput ieee754 g "OSS" = mkGlobal silent_settings None None
  /\ @Audio_startInput ieee754 g "OSS" = g
  /\ rp_destroyed (replaced_after 0 [Acquire]) = Some ControlThread
  /\ rp_destroyed (replaced_after 1 [Duplicate; Release]) = None
  /\ rp_destroyed (replaced_after 1 [Duplicate; Release; Release]) = Some OtherThread.
Proof.
  intros g.
  destruct (@start_with_unresolved_selector_clears_handle ieee754 g "OSS" "OSS"
              0 [Acquire]) as [Ho [Hi [_ [_ [H0 _]]]]].
  destruct (@start_with_unresolved_selector_clears_handle ieee754 g "OSS" "OSS"
              1 [Duplicate; Release]) as [_ [_ [_ [_ [_ H1]]]]].
  destruct (@start_with_unresolved_selector_clears_handle ieee754 g "OSS" "OSS"
              1 [Duplicate; Release; Release]) as [_ [_ [_ [_ [_ H2]]]]].
  split; [reflexivity|]. split; [reflexivity|].
  split; [exact (proj1 (Ho eq_refl))|].
  split; [exact (proj2 (Hi eq_refl) eq_refl)|].
  split; [apply H0; reflexivity|].
  split; [apply (H1 (le_n 1)); cbn; lia|].
  apply (H2 (le_n 1)). reflexivity.
Defined.



(** C4, as stated, also fails for a call that [fetchFrames] interleaves
    with: 250 ms after the last fetch the frame is scheduled with zero
    delay, a render device is active, but the output thread drains the
    collection between the release of the lock and the restart check; the
    check then sees a timer restarted 1 ms ago and no priming frame is
    pushed - the device receives the frame itself and nothing else.  The
    same call with nothing in between does prime the device. *)
Lemma addFrame_interleaved_fetch_skips_priming :
  let u := mkLoopUser "Loopy" [] 0 0 in
  let g := mkGlobal silent_settings (Some running_output) None in
  let env := mkAddFrameEnv 0 0 250 250 252 in
  let fetch : Interference :=
    fun st => @LoopUser_fetchFrames ieee754 (fst st) (snd st) 251 251 in
  let nothing : Interference := fun st => st in
  let received (r : option (LoopUser * Global)) :=
    option_map (fun st => option_map ao_frames (ao (snd st))) r in
  elapsed (qetLastFetch u) (clock_locked env) = 250
  /\ @dropped ieee754 g env = false
  /\ @LoopUser_addFrame_locked ieee754 u g env [128; 7]
     = Some (mkLoopUser "Loopy" [(250%Q, [128; 7])] 0 0)
  /\ received (@LoopUser_addFrame_interleaved ieee754 u g env [128; 7] fetch nothing)
     = Some (Some [mkFrame "Loopy" [128] 7 4])
  /\ received (@LoopUser_addFrame_interleaved ieee754 u g env [128; 7] nothing nothing)
     = Some (Some [mkFrame "Loopy" [] 0 4]).
Proof. vm_compute. repeat split. Qed.


(** C8.  With loss probability 1.0 and [rand()] returning [RAND_MAX], the
    draw is 1.0, which is not below the loss probability: the frame is not
    discarded but inserted. *)
Theorem addFrame_full_loss_keeps_frame_at_RAND_MAX :
  let u := mkLoopUser "Loopy" [] 0 0 in
  let g := mkGlobal (mkSettings 1 0) None None in
  let env := mkAddFrameEnv 2147483647 0 50 50 50 in
  (dPacketLoss (s g) == 1)%Q
  /\ rand1 env = @RAND_MAX ieee754
  /\ (@DOUBLE_RAND ieee754 (rand1 env) == 1)%Q
  /\ @dropped ieee754 g env = false
  /\ option_map (fun r => qmPackets (fst r))
       (@LoopUser_addFrame ieee754 u g env [128; 7])
     = Some [(50%Q, [128; 7])].
Proof. vm_compute. repeat split. Qed.

(** Every smaller draw is below 1.0 and the frame is discarded. *)
Lemma ieee754_full_loss_drops_below_RAND_MAX (g : Global) (env : AddFrameEnv) :
  (dPacketLoss (s g) == 1)%Q ->
  0 <= rand1 env < @RAND_MAX ieee754 ->
  @dropped ieee754 g env = true.
Proof.
  intros Hloss Hr. unfold dropped. apply Qlt_bool_iff. rewrite Hloss.
  unfold DOUBLE_RAND, double_div, double_of_int.
  cbn [to_double RAND_MAX ieee754 ieee754_reading] in *.
  rewrite !binary64_round_exact_int by lia.
  apply Qle_lt_trans
    with (binary64_round (inject_Z 2147483646 / inject_Z 2147483647)).
  - apply (proj1 ieee754_double_rounding_laws).
    apply Qmult_le_compat_r; [|discriminate].
    rewrite <- Zle_Qle. lia.
  - vm_compute. reflexivity.
Qed.

(** Two surviving frames arrive while no render device is active: both are
    kept in the pending collection. *)
Lemma addFrame_without_sink_witness :
  let u := mkLoopUser "Loopy" [] 0 0 in
  let calls := [(mkAddFrameEnv 7 0 10 10 10, [128; 1]);
                (mkAddFrameEnv 9 0 30 30 30, [128; 2])] in
  ao idle_global = None
  /\ Forall (fun c => @dropped ieee754 idle_global (fst c) = false) calls
  /\ exists u',
       @LoopUser_addFrames ieee754 u idle_global calls = Some (u', idle_global)
       /\ List.length (qmPackets u') = 2%nat
       /\ forall c, In c calls -> In (snd c) (map snd (qmPackets u')).
Proof.
  intros u calls.
  assert (Hall : Forall (fun c => @dropped ieee754 idle_global (fst c) = false) calls).
  { repeat constructor. }
  split; [reflexivity|]. split; [exact Hall|].
  exact (proj1 (proj2 (@addFrame_without_sink ieee754 u idle_global calls
                         eq_refl Hall))).
Defined.

(** A recorder with loss probability 1.0 configured: three frames, three
    deliveries, in call order. *)
Example RecordUser_addFrames_full_loss :
  let u := RecordUser_new 0 0 in
  let g := mkGlobal (mkSettings 1 0) (Some running_output) None in
  let r := @RecordUser_addFrames ieee754 u g [[128; 1; 65]; [128; 2; 66]; [160; 3]] in
  fst r = u
  /\ option_map ao_frames (ao (snd r))
     = Some [mkFrame "Recorder" [128; 65] 1 4;
             mkFrame "Recorder" [128; 66] 2 4;
             mkFrame "Recorder" [160] 3 5].
Proof. vm_compute. split; reflexivity. Qed.

(** One callback thread holds a reference: the stopping thread spins at
    the wait loop, with the device alive, until the reference is dropped;
    then it destroys the device itself. *)
Example stopOutput_waits_for_callback :
  let spinning := stopOutput_run [SO_control; SO_control; SO_control; SO_control]
                    (stopOutput_call 1) in
  let finished := stopOutput_run [SO_other Release; SO_control; SO_control] spinning in
  so_pc spinning = SO_wait
  /\ so_destroyed spinning = None
  /\ so_pc finished = SO_returned
  /\ so_destroyed finished = Some ControlThread.
Proof. vm_compute. repeat split. Qed.

(** A thread that took its copy just before the handle was cleared keeps
    the stopping thread waiting as well. *)
Example stopOutput_waits_for_late_copy :
  let spinning := stopOutput_run
                    [SO_control; SO_other Acquire; SO_control; SO_other Acquire;
                     SO_control; SO_control]
                    (stopOutput_call 0) in
  so_pc spinning = SO_wait
  /\ elsewhere (so_device spinning) = 1%nat
  /\ so_destroyed spinning = None.
Proof. vm_compute. repeat split. Qed.

(** The capture side is free, the render side is still referenced: [stop]
    keeps both devices alive. *)
Example stop_waits_for_both :
  let spinning := stop_run (repeat ST_control 12) (stop_call 0 1) in
  let finished := stop_run (ST_other Render Release :: repeat ST_control 4) spinning in
  stop_past_wait (st_pc spinning) = false
  /\ st_ai_destroyed spinning = None
  /\ st_ao_destroyed spinning = None
  /\ st_pc finished = ST_returned
  /\ st_ai_destroyed finished = Some ControlThread
  /\ st_ao_destroyed finished = Some ControlThread.
Proof. vm_compute. repeat split. Qed.

(* ================================================================== *)
(** * Further properties on the IEEE 754 platform *)



(* ================================================================== *)
(** * The further properties at concrete inputs *)

(** A stalled loopback user (250 ms since the last fetch) with a render
    device active receives a frame of type 4 with sequence number 7. *)
Lemma LoopUser_addFrame_touches_only_pending_and_primes_witness :
  let u := mkLoopUser "Loopy" [] 0 0 in
  let g := mkGlobal silent_settings (Some running_output) None in
  let env := mkAddFrameEnv 5 0 250 250 251 in
  let u1 := mkLoopUser "Loopy" [(250%Q, [128; 7])] 0 0 in
  let g1 := mkGlobal silent_settings
              (Some (mkAudioOutput 1 (Some HighPriority) [mkFrame "Loopy" [] 0 4]))
              None in
  @LoopUser_addFrame ieee754 u g env [128; 7] = Some (u1, g1)
  /\ qsName u1 = qsName u /\ qetTicker u1 = qetTicker u.
Proof.
  intros u g env u1 g1.
  assert (H : @LoopUser_addFrame ieee754 u g env [128; 7] = Some (u1, g1))
    by (vm_compute; reflexivity).
  split; [exact H|].
  destruct (@LoopUser_addFrame_touches_only_pending_and_primes ieee754 _ _ _ _ _ _ H)
    as [Hn [Ht _]].
  split; assumption.
Defined.

Lemma LoopUser_run_invariants_witness :
  let u := mkLoopUser "Loopy" [] 0 0 in
  let g := mkGlobal silent_settings (Some running_output) None in
  let ops := [Op_addFrame (mkAddFrameEnv 5 0 250 250 251) [128; 7];
              Op_fetchFrames 260 261] in
  let u' := mkLoopUser "Loopy" [] 0 261 in
  let g' := mkGlobal silent_settings
              (Some (mkAudioOutput 1 (Some HighPriority)
                       [mkFrame "Loopy" [] 0 4; mkFrame "Loopy" [128] 7 4]))
              None in
  QMultiMap_ordered (qmPackets u)
  /\ @LoopUser_run ieee754 u g ops = Some (u', g')
  /\ QMultiMap_ordered (qmPackets u').
Proof.
  intros u g ops u' g'.
  assert (Hs : QMultiMap_ordered (qmPackets u)) by constructor.
  assert (H : @LoopUser_run ieee754 u g ops = Some (u', g'))
    by (vm_compute; reflexivity).
  split; [exact Hs|]. split; [exact H|].
  destruct (@LoopUser_run_invariants ieee754 ops u u' g g' Hs H)
    as [_ [_ [_ [_ [Ho _]]]]].
  exact Ho.
Defined.

Lemma LoopUser_fetchFrames_twice_witness :
  let u := mkLoopUser "Loopy" pending_5_1_3_9 0 0 in
  let g := mkGlobal silent_settings (Some running_output) None in
  let first := @LoopUser_fetchFrames ieee754 u g 3 3 in
  ao g = Some running_output
  /\ QMultiMap_ordered (qmPackets u)
  /\ (@double_of_int ieee754 (elapsed (qetTicker u) 3)
      <= @double_of_int ieee754 (elapsed (qetTicker u) 5))%Q
  /\ qmPackets (fst (@LoopUser_fetchFrames ieee754 (fst first) (snd first) 5 6))
     = qmPackets (fst (@LoopUser_fetchFrames ieee754 u g 5 6)).
Proof.
  intros u g first.
  assert (Hs : QMultiMap_ordered (qmPackets u)).
  { repeat apply QMultiMap_insert_ordered. constructor. }
  assert (Hle : (@double_of_int ieee754 (elapsed (qetTicker u) 3)
                 <= @double_of_int ieee754 (elapsed (qetTicker u) 5))%Q)
    by (vm_compute; discriminate).
  split; [reflexivity|]. split; [exact Hs|]. split; [exact Hle|].
  exact (proj1 (@LoopUser_fetchFrames_twice ieee754 u g running_output 3 3 5 6
                  eq_refl Hs Hle)).
Defined.


Lemma loss_draw_decides_witness :
  let g := mkGlobal (mkSettings (3 # 2) 0) None None in
  let env := mkAddFrameEnv 2147483647 0 0 0 0 in
  0 < @RAND_MAX ieee754
  /\ 0 <= rand1 env <= @RAND_MAX ieee754
  /\ (0 <= @DOUBLE_RAND ieee754 (rand1 env) <= 1)%Q
  /\ @dropped ieee754 g env = true.
Proof.
  intros g env.
  assert (HR : 0 < @RAND_MAX ieee754) by reflexivity.
  assert (Hr : 0 <= rand1 env <= @RAND_MAX ieee754) by (vm_compute; split; discriminate).
  destruct (@loss_draw_decides ieee754 g env ieee754_double_rounding_laws HR Hr)
    as [Hrange [_ [Hall _]]].
  split; [exact HR|]. split; [exact Hr|]. split; [exact Hrange|].
  apply Hall. vm_compute. reflexivity.
Defined.

Lemma stopOutput_never_returns_without_release_witness :
  let schedule := [SO_control; SO_control; SO_other Acquire; SO_control;
                   SO_other Duplicate; SO_control; SO_control] in
  (1 <= 1)%nat
  /\ Forall (fun a => a <> SO_other Release) schedule
  /\ so_pc (stopOutput_run schedule (stopOutput_call 1)) <> SO_returned.
Proof.
  intros schedule.
  assert (Hnr : Forall (fun a => a <> SO_other Release) schedule)
    by (repeat constructor; discriminate).
  split; [lia|]. split; [exact Hnr|].
  destruct (stopOutput_never_returns_without_release 1 schedule (le_n 1) Hnr)
    as [_ [H _]].
  exact H.
Defined.

Lemma stopOutput_returns_two_statements_after_sole_witness :
  let before := [SO_control; SO_control; SO_other Release] in
  let after := [SO_other Acquire; SO_control; SO_other Release; SO_control] in
  so_pc (stopOutput_run before (stopOutput_call 1)) = SO_wait
  /\ elsewhere (so_device (stopOutput_run before (stopOutput_call 1))) = O
  /\ (2 <= stopOutput_control_steps after)%nat
  /\ so_pc (stopOutput_run after (stopOutput_run before (stopOutput_call 1)))
     = SO_returned.
Proof.
  intros before after.
  assert (Hk : (2 <= stopOutput_control_steps after)%nat) by (vm_compute; lia).
  split; [reflexivity|]. split; [reflexivity|]. split; [exact Hk|].
  exact (proj1 (stopOutput_returns_two_statements_after_sole 1 before after
                  eq_refl eq_refl Hk)).
Defined.

Lemma stop_never_passes_wait_without_release_witness :
  let schedule := repeat ST_control 6 ++ [ST_other Capture Release; ST_control] in
  (1 <= elsewhere (stop_device Render (stop_call 0 1)))%nat
  /\ Forall (fun a => a <> ST_other Render Release) schedule
  /\ stop_past_wait (st_pc (stop_run schedule (stop_call 0 1))) = false.
Proof.
  intros schedule.
  assert (Hn : (1 <= elsewhere (stop_device Render (stop_call 0 1)))%nat)
    by (cbn; lia).
  assert (Hnr : Forall (fun a => a <> ST_other Render Release) schedule)
    by (repeat constructor; discriminate).
  split; [exact Hn|]. split; [exact Hnr|].
  exact (proj1 (stop_never_passes_wait_without_release Render 0 1 schedule Hn Hnr)).
Defined.

Lemma stop_returns_four_statements_after_sole_witness :
  let before := [ST_control; ST_control; ST_control; ST_control;
                 ST_other Capture Release; ST_other Render Release] in
  let after := [ST_control; ST_other Render Acquire; ST_control; ST_control;
                ST_other Capture Release; ST_control] in
  st_pc (stop_run before (stop_call 1 1)) = ST_test_ai
  /\ (4 <= stop_control_steps after)%nat
  /\ st_pc (stop_run after (stop_run before (stop_call 1 1))) = ST_returned.
Proof.
  intros before after.
  assert (Hk : (4 <= stop_control_steps after)%nat) by (vm_compute; lia).
  split; [reflexivity|]. split; [exact Hk|].
  exact (proj1 (stop_returns_four_statements_after_sole 1 1 before after
                  eq_refl eq_refl eq_refl Hk)).
Defined.

